(** * Besos: the message log, its merge handler and the reaction toggle

    A shallow embedding of the chat application's state handlers
    (the [App] component, the [types] module and the two audio recorder
    hooks) together with the properties of the synchronisation engine.

    Conventions.
    - A JavaScript string is a [string] holding its UTF-8 bytes; [===] on
      strings is [String.eqb].
    - An array is a [list]; an index is a [Z], as [findIndex] answers [-1].
    - A [Date] is the number of milliseconds since the epoch, a [Z].
    - React state is passed explicitly: a handler reads the state of the
      render it was created in and its [setX] calls give the next state.
      Calls on the outside world (channel, translation service, alert,
      console) are recorded, in program order, in a list of effects. *)

From Stdlib Require Import ZArith String Ascii List Lia.
From Stdlib Require Import DecimalString DecimalZ DecimalPos.
From stdpp Require Import base list strings.

Local Open Scope string_scope.
Local Open Scope list_scope.
Local Open Scope Z_scope.

(** ** Data model ([types]) *)

Inductive Language := english | spanish.

Definition Language_eqb (a b : Language) : bool :=
  match a, b with
  | english, english | spanish, spanish => true
  | _, _ => false
  end.

Record Reaction := mkReaction {
  emoji : string;
  r_sender : Language
}.

Record ChatMessage := mkChatMessage {
  id : string;
  sender : Language;
  originalText : string;
  translatedText : string;
  timestamp : Z;
  reactions : list Reaction;
  audioUrl : option string
}.

Record TranslationResponse := mkTranslationResponse {
  transcription : string;
  translation : string
}.

(** ** Array primitives *)

(** Position of the first element satisfying [p]. *)
Fixpoint find_first {A} (p : A -> bool) (l : list A) : option nat :=
  match l with
  | [] => None
  | x :: l' => if p x then Some O else option_map S (find_first p l')
  end.

(** [Array.prototype.findIndex]: the first position, or [-1]. *)
Definition findIndex {A} (p : A -> bool) (l : list A) : Z :=
  match find_first p l with
  | Some i => Z.of_nat i
  | None => -1
  end.

(** [arr[i] = x] on a copy, for an index inside the array (the only use
    in the source takes [i] from [findIndex]). *)
Definition array_set {A} (l : list A) (i : Z) (x : A) : list A :=
  <[Z.to_nat i := x]> l.

(** [arr.splice(i, 1)] for [i >= 0]. *)
Definition splice1 {A} (l : list A) (i : Z) : list A :=
  delete (Z.to_nat i) l.

(** ** The merge handler ([channel.onmessage]) *)

Definition merge (incomingMessage : ChatMessage) (prev : list ChatMessage)
  : list ChatMessage :=
  let index := findIndex (fun m => String.eqb (id m) (id incomingMessage)) prev in
  if negb (index =? -1) then
    let newArr := prev in
    array_set newArr index incomingMessage
  else
    prev ++ [incomingMessage].

(** The record the handlers find under an id: the first one carrying it. *)
Definition stored (msgId : string) (log : list ChatMessage)
  : option ChatMessage :=
  match find_first (fun m => String.eqb (id m) msgId) log with
  | Some i => log !! i
  | None => None
  end.

(** The test the merge handler searches the log with. *)
Definition same_id (incoming m : ChatMessage) : bool :=
  String.eqb (id m) (id incoming).

(** ** JavaScript string primitives *)

(** A string as the list of its byte values. *)
Definition bytes_of (s : string) : list N :=
  map N_of_ascii (list_ascii_of_string s).

Definition string_of_bytes (l : list N) : string :=
  string_of_list_ascii (map ascii_of_N l).

(** Number of leading bytes of [l] that encode one WhiteSpace or
    LineTerminator code point (ECMAScript 12.2 and 12.3), or [0]:
    U+0009..U+000D and U+0020; U+00A0; U+1680; U+2000..U+200A, U+2028,
    U+2029, U+202F; U+205F; U+3000; U+FEFF. *)
Definition ws_lead (l : list N) : nat :=
  match l with
  | a :: r =>
      if ((9 <=? a) && (a <=? 13) || (a =? 32))%N then 1%nat
      else match r with
      | b :: r' =>
          if ((a =? 194) && (b =? 160))%N then 2%nat
          else match r' with
          | c :: _ =>
              if ((a =? 225) && (b =? 154) && (c =? 128)
                  || (a =? 226) && (b =? 128)
                     && ((128 <=? c) && (c <=? 138) || (c =? 168) || (c =? 169)
                         || (c =? 175))
                  || (a =? 226) && (b =? 129) && (c =? 159)
                  || (a =? 227) && (b =? 128) && (c =? 128)
                  || (a =? 239) && (b =? 187) && (c =? 191))%N
              then 3%nat else 0%nat
          | [] => 0%nat
          end
      | [] => 0%nat
      end
  | [] => 0%nat
  end.

(** The same for the last code point of a string, read on the reversed
    byte list: one blank byte, the two bytes of U+00A0, or three bytes that
    together encode one of the code points above. *)
Definition ws_trail (rl : list N) : nat :=
  match rl with
  | c :: r =>
      if ((9 <=? c) && (c <=? 13) || (c =? 32))%N then 1%nat
      else match r with
      | b :: r' =>
          if ((b =? 194) && (c =? 160))%N then 2%nat
          else match r' with
          | a :: _ =>
              match ws_lead [a; b; c] with
              | 3%nat => 3%nat
              | _ => 0%nat
              end
          | [] => 0%nat
          end
      | [] => 0%nat
      end
  | [] => 0%nat
  end.

(** Drop code points while [width] recognises one at the head; [skip]
    counts the bytes of the current code point still to drop. *)
Fixpoint drop_while_ws (width : list N -> nat) (skip : nat) (l : list N)
  : list N :=
  match l with
  | [] => []
  | _ :: r =>
      match skip with
      | S k => drop_while_ws width k r
      | O => match width l with
             | O => l
             | S k => drop_while_ws width k r
             end
      end
  end.

(** [String.prototype.trim]. *)
Definition trim (s : string) : string :=
  let front := drop_while_ws ws_lead 0 (bytes_of s) in
  string_of_bytes (rev (drop_while_ws ws_trail 0 (rev front))).

(** [!v] for a value that is an object or [null]. *)
Definition is_null {A} (v : option A) : bool :=
  match v with None => true | Some _ => false end.

(** Truthiness of a string: the empty string is falsy. *)
Definition truthy (s : string) : bool := negb (String.eqb s "").

(** [n.toString()] for an integral number below 1e21: decimal digits,
    with a minus sign when negative. *)
Definition toString (n : Z) : string := NilZero.string_of_int (Z.to_int n).

(** A template literal's rendering of a value that may be [undefined]. *)
Definition interpolate (v : option string) : string :=
  match v with Some s => s | None => "undefined" end.

(** ** Completions, effects and the handler monad *)

(** How a call ends: with a value, or with a thrown value (for an async
    function: its promise fulfilled or rejected). *)
Inductive completion (A : Type) : Type :=
| Returned (v : A)
| Thrown (reason : string).
Arguments Returned {A} v.
Arguments Thrown {A} reason.

(** Calls on the outside world. *)
Inductive effect :=
| PostMessage (m : ChatMessage)
| CallTranslateText (text : string) (sourceLang : Language)
| CallTranslateAudio (audioBase64 : option string) (sourceLang : Language)
| Alert (text : string)
| ConsoleError (text : string).

Record outcome (S A : Type) := mkOutcome {
  result : completion A;
  state : S;
  trace : list effect
}.
Arguments mkOutcome {S A} result state trace.
Arguments result {S A} o.
Arguments state {S A} o.
Arguments trace {S A} o.

(** ** The recorder defined in the [App] file (also [hooks/useAudioRecorder]) *)

Module AppRecorder.

Record t := mk {
  isRecording : bool;
  audioBlob : option string
}.

Definition init : t := mk false None.

Definition startRecording (r : t) : outcome t unit :=
  mkOutcome (Returned tt) (mk true (audioBlob r)) [].

(** Returns nothing: the caller reads [undefined], here [None]. *)
Definition stopRecording (r : t) : outcome t (option string) :=
  mkOutcome (Returned None) (mk false (audioBlob r)) [].

Definition resetRecording (r : t) : outcome t unit :=
  mkOutcome (Returned tt) (mk false None) [].

End AppRecorder.

(** ** Application state *)

Inductive AuthStage := LOCK | ROLE_SELECT | CHAT.

(** The state cells the chat handlers read or write; [channelOpen] says
    whether [channelRef.current] holds a channel. *)
Record AppState := mkAppState {
  authStage : AuthStage;
  myRole : option Language;
  messages : list ChatMessage;
  inputText : string;
  isProcessing : bool;
  activeReactionId : option string;
  channelOpen : bool;
  recorder : AppRecorder.t
}.

Definition initialState : AppState :=
  mkAppState LOCK None [] "" false None false AppRecorder.init.

Definition setAuthStage (v : AuthStage) (st : AppState) : AppState :=
  mkAppState v (myRole st) (messages st) (inputText st) (isProcessing st)
    (activeReactionId st) (channelOpen st) (recorder st).
Definition setMyRole (v : option Language) (st : AppState) : AppState :=
  mkAppState (authStage st) v (messages st) (inputText st) (isProcessing st)
    (activeReactionId st) (channelOpen st) (recorder st).
Definition setMessages (f : list ChatMessage -> list ChatMessage)
    (st : AppState) : AppState :=
  mkAppState (authStage st) (myRole st) (f (messages st)) (inputText st)
    (isProcessing st) (activeReactionId st) (channelOpen st) (recorder st).
Definition setInputText (v : string) (st : AppState) : AppState :=
  mkAppState (authStage st) (myRole st) (messages st) v (isProcessing st)
    (activeReactionId st) (channelOpen st) (recorder st).
Definition setIsProcessing (v : bool) (st : AppState) : AppState :=
  mkAppState (authStage st) (myRole st) (messages st) (inputText st) v
    (activeReactionId st) (channelOpen st) (recorder st).
Definition setActiveReactionId (v : option string) (st : AppState) : AppState :=
  mkAppState (authStage st) (myRole st) (messages st) (inputText st)
    (isProcessing st) v (channelOpen st) (recorder st).
Definition setChannel (v : bool) (st : AppState) : AppState :=
  mkAppState (authStage st) (myRole st) (messages st) (inputText st)
    (isProcessing st) (activeReactionId st) v (recorder st).
Definition setRecorder (v : AppRecorder.t) (st : AppState) : AppState :=
  mkAppState (authStage st) (myRole st) (messages st) (inputText st)
    (isProcessing st) (activeReactionId st) (channelOpen st) v.

(** A handler: from the state it runs in to a completion, the next state
    and the effects performed. *)
Definition Handler (A : Type) : Type := AppState -> outcome AppState A.

Definition ret {A} (v : A) : Handler A :=
  fun st => mkOutcome (Returned v) st [].

Definition bind {A B} (m : Handler A) (k : A -> Handler B) : Handler B :=
  fun st =>
    let o := m st in
    match result o with
    | Returned v =>
        let o' := k v (state o) in
        mkOutcome (result o') (state o') (trace o ++ trace o')
    | Thrown reason => mkOutcome (Thrown reason) (state o) (trace o)
    end.

Definition update (f : AppState -> AppState) : Handler unit :=
  fun st => mkOutcome (Returned tt) (f st) [].

Definition perform (e : effect) : Handler unit :=
  fun st => mkOutcome (Returned tt) st [e].

(** A call on a collaborator: recorded, and it ends as the collaborator
    decides. *)
Definition call {A} (e : effect) (answer : completion A) : Handler A :=
  fun st => mkOutcome answer st [e].

(** [try { body } catch (error) { handler } finally { final }], for a
    [final] block that completes normally. *)
Definition try_catch_finally {A} (body : Handler A)
    (handler : string -> Handler A) (final : Handler unit) : Handler A :=
  fun st =>
    let o := body st in
    let o1 :=
      match result o with
      | Returned _ => o
      | Thrown reason =>
          let oc := handler reason (state o) in
          mkOutcome (result oc) (state oc) (trace o ++ trace oc)
      end in
    let o2 := final (state o1) in
    mkOutcome (result o1) (state o2) (trace o1 ++ trace o2).

#[global] Instance handler_ret : MRet Handler := @ret.
#[global] Instance handler_bind : MBind Handler := fun A B k m => bind m k.

(** ** Mounting: the invite link, the stored access flag, the channel *)

Definition ACCESS_CODE : string := "BESOS".

Definition Language_of_param (roleParam : option string) : option Language :=
  match roleParam with
  | Some r => if String.eqb r "english" then Some english
              else if String.eqb r "spanish" then Some spanish
              else None
  | None => None
  end.

Definition is_some_string (v : option string) (s : string) : bool :=
  match v with Some x => String.eqb x s | None => false end.

(** The effect run once on mount. With a valid invite link it returns
    before the channel is created. *)
Definition mount (roleParam codeParam storedAccess : option string)
  : Handler unit :=
  match is_some_string codeParam ACCESS_CODE, Language_of_param roleParam with
  | true, Some role =>
      update (setMyRole (Some role));; update (setAuthStage CHAT)
  | _, _ =>
      (if is_some_string storedAccess "true"
       then update (setAuthStage ROLE_SELECT) else ret tt);;
      update (setChannel true)
  end.

Definition selectRole (role : Language) : Handler unit :=
  update (setMyRole (Some role));; update (setAuthStage CHAT).

Definition handleLogout : Handler unit :=
  update (setMyRole None);; update (setAuthStage ROLE_SELECT).

(** [channel.onmessage]: the functional update of the log by [merge]. *)
Definition onmessage (incomingMessage : ChatMessage) : Handler unit :=
  update (setMessages (merge incomingMessage)).

(** [channelRef.current?.postMessage(m)]. *)
Definition postMessage (m : ChatMessage) : Handler unit :=
  fun st => if channelOpen st then perform (PostMessage m) st else ret tt st.

(** ** Creating a message *)

(** [now] is what [Date.now()] reads and [date] what [new Date()] reads. *)
Definition newMessage (now date : Z) (res : TranslationResponse)
    (sourceLang : Language) (audio : option string) : ChatMessage :=
  {| id := toString now;
     sender := sourceLang;
     originalText := transcription res;
     translatedText := translation res;
     timestamp := date;
     reactions := [];
     audioUrl := audio |}.

Definition handleTranslationResult (now date : Z) (res : TranslationResponse)
    (sourceLang : Language) (audio : option string) : Handler unit :=
  let newMessage := newMessage now date res sourceLang audio in
  update (setMessages (fun prev => prev ++ [newMessage]));;
  postMessage newMessage.

(** ** Toggling a reaction *)

Definition reaction_matches (emoji0 : string) (role : Language) (r : Reaction)
  : bool :=
  String.eqb (emoji r) emoji0 && Language_eqb (r_sender r) role.

Definition toggleReactions (emoji0 : string) (role : Language)
    (rs : list Reaction) : list Reaction :=
  let existingReactionIndex := findIndex (reaction_matches emoji0 role) rs in
  let newReactions := rs in
  if existingReactionIndex >? -1
  then splice1 newReactions existingReactionIndex
  else newReactions ++ [mkReaction emoji0 role].

(** How many reactions of [rs] carry the pair. *)
Definition count_matches (emoji0 : string) (role : Language)
    (rs : list Reaction) : nat :=
  length (List.filter (reaction_matches emoji0 role) rs).

Definition withReactions (msg : ChatMessage) (rs : list Reaction) : ChatMessage :=
  {| id := id msg;
     sender := sender msg;
     originalText := originalText msg;
     translatedText := translatedText msg;
     timestamp := timestamp msg;
     reactions := rs;
     audioUrl := audioUrl msg |}.

(** The callback mapped over the log: the record it returns and the
    records it posts on the way. *)
Definition toggleInMessage (open : bool) (msgId emoji0 : string)
    (role : Language) (msg : ChatMessage) : ChatMessage * list effect :=
  if negb (String.eqb (id msg) msgId) then (msg, [])
  else
    let updatedMsg := withReactions msg (toggleReactions emoji0 role (reactions msg)) in
    (updatedMsg, if open then [PostMessage updatedMsg] else []).

Definition handleToggleReaction (msgId emoji0 : string) : Handler unit :=
  fun st =>
    match myRole st with
    | None => ret tt st
    | Some role =>
        let stepped :=
          map (toggleInMessage (channelOpen st) msgId emoji0 role) (messages st) in
        let updatedMessages := map fst stepped in
        mkOutcome (Returned tt)
          (setActiveReactionId None (setMessages (fun _ => updatedMessages) st))
          (concat (map snd stepped))
    end.

(** What the toggle leaves at a position of the log. *)
Definition toggled (msgId e : string) (role : Language) (msg : ChatMessage)
  : ChatMessage :=
  if String.eqb (id msg) msgId
  then withReactions msg (toggleReactions e role (reactions msg))
  else msg.

(** ** Sending text and voice *)

Section Gateway.

(** The translation service ([services/gemini]): how each call ends. *)
Variable translateText : string -> Language -> completion TranslationResponse.
Variable translateAudioContent :
  option string -> Language -> completion TranslationResponse.

(** The recorder's operations, run on the recorder cell of the state. *)
Definition startRecording : Handler unit :=
  fun st =>
    let o := AppRecorder.startRecording (recorder st) in
    mkOutcome (result o) (setRecorder (state o) st) (trace o).

Definition stopRecording : Handler (option string) :=
  fun st =>
    let o := AppRecorder.stopRecording (recorder st) in
    mkOutcome (result o) (setRecorder (state o) st) (trace o).

Definition handleStartRecording : Handler unit :=
  fun st =>
    if isProcessing st || (0 <? Z.of_nat (String.length (trim (inputText st))))
    then ret tt st
    else startRecording st.

Definition handleStopRecording (now date : Z) : Handler unit :=
  fun st =>
    if (0 <? Z.of_nat (String.length (trim (inputText st))))
       || is_null (myRole st)
    then ret tt st
    else
      match myRole st with
      | Some role =>
          try_catch_finally
            (update (setIsProcessing true);;
             audioBase64 ← stopRecording;
             let audio := "data:audio/wav;base64," +:+ interpolate audioBase64 in
             res ← call (CallTranslateAudio audioBase64 role)
                        (translateAudioContent audioBase64 role);
             handleTranslationResult now date res role (Some audio))
            (fun _ =>
               perform (ConsoleError "Voice Interaction failed");;
               perform (Alert "Something went wrong with the voice translation. Please try again."))
            (update (setIsProcessing false))
            st
      | None => ret tt st
      end.

Definition handleSendText (now date : Z) : Handler unit :=
  fun st =>
    if negb (truthy (trim (inputText st))) || isProcessing st
       || is_null (myRole st)
    then ret tt st
    else
      match myRole st with
      | Some role =>
          try_catch_finally
            (update (setIsProcessing true);;
             let textToSend := inputText st in
             update (setInputText "");;
             res ← call (CallTranslateText textToSend role)
                        (translateText textToSend role);
             handleTranslationResult now date res role None)
            (fun _ =>
               perform (ConsoleError "Text Interaction failed");;
               perform (Alert "Something went wrong with the text translation. Please try again."))
            (update (setIsProcessing false))
            st
      | None => ret tt st
      end.

End Gateway.

(** ** The recorder hook built on [MediaRecorder] *)

Module Hook.

Inductive RecordingState := inactive | recording.

(** The browser's recorder object: its state, whether the hook's
    [onstop] callback is installed, whether the stream's tracks run. *)
Record MediaRecorder := mkMediaRecorder {
  mr_state : RecordingState;
  onstop_installed : bool;
  tracks_live : bool
}.

(** A promise is settled with a completion, or still pending. The
    value of a fulfilled one may be [undefined], here [None]. *)
Inductive promise (A : Type) : Type :=
| Settled (c : completion A)
| Pending.
Arguments Settled {A} c.
Arguments Pending {A}.

Record t := mk {
  isRecording : bool;
  recordingTime : Z;
  mediaRecorderRef : option MediaRecorder;
  chunksRef : list string;
  timerRef : option Z;
  intervals : list Z
}.

Definition init : t := mk false 0 None [] None [].

(** [granted]: whether [getUserMedia] gave a stream; [timerId]: what
    [setInterval] returned. The new interval is registered beside those
    that earlier starts left behind: [timerRef] is overwritten, nothing is
    cleared. *)
Definition startRecording (granted : bool) (timerId : Z) (r : t)
  : outcome t unit :=
  if granted then
    mkOutcome (Returned tt)
      (mk true 0 (Some (mkMediaRecorder recording false true)) []
          (Some timerId) (intervals r ++ [timerId]))
      []
  else
    mkOutcome (Returned tt) r
      [ConsoleError "Error accessing microphone:";
       Alert "Could not access microphone. Please allow permissions."].

Definition ondataavailable (data : string) (r : t) : t :=
  if 0 <? Z.of_nat (String.length data)
  then mk (isRecording r) (recordingTime r) (mediaRecorderRef r)
          (chunksRef r ++ [data]) (timerRef r) (intervals r)
  else r.

(** One firing of the interval [timerId], if it is registered. *)
Definition tick (timerId : Z) (r : t) : t :=
  if existsb (Z.eqb timerId) (intervals r)
  then mk (isRecording r) (recordingTime r + 1) (mediaRecorderRef r)
          (chunksRef r) (timerRef r) (intervals r)
  else r.

(** [clearInterval(timerId)]. *)
Definition clearInterval (timerId : Z) (l : list Z) : list Z :=
  List.filter (fun i => negb (i =? timerId)) l.

(** The call of [stopRecording]: the promise it returns, as far as the
    call itself settles it. [inactive_stop_throws] says whether the
    browser's [stop()] throws on a recorder that is not recording
    (older engines) or does nothing. *)
Definition stopRecording (inactive_stop_throws : bool) (r : t)
  : promise (option string) * t :=
  match mediaRecorderRef r with
  | None => (Settled (Thrown "No recorder found"), r)
  | Some mediaRecorder =>
      let installed st' :=
        mk (isRecording r) (recordingTime r)
           (Some (mkMediaRecorder st' true (tracks_live mediaRecorder)))
           (chunksRef r) (timerRef r) (intervals r) in
      match mr_state mediaRecorder with
      | recording => (Pending, installed inactive)
      | inactive =>
          if inactive_stop_throws
          then (Settled (Thrown "InvalidStateError"), installed inactive)
          else (Pending, installed inactive)
      end
  end.

(** Truthiness of [timerRef.current]: a timer id other than [0]. *)
Definition timer_set (v : option Z) : bool :=
  match v with Some i => negb (i =? 0) | None => false end.

(** The piece after the first comma, up to the next one:
    [s.split(',')[1]]. *)
Fixpoint upto_comma (s : string) : string :=
  match s with
  | EmptyString => EmptyString
  | String c s' => if Ascii.eqb c "," then EmptyString else String c (upto_comma s')
  end.

Fixpoint split_comma_1 (s : string) : option string :=
  match s with
  | EmptyString => None
  | String c s' => if Ascii.eqb c "," then Some (upto_comma s') else split_comma_1 s'
  end.

(** The recorder's [stop] event, for a recorder whose callback is
    installed. [readAsDataURL] is the file reader: the data URL of a
    blob, or its error; the promise is settled when the reader ends. *)
Definition onstop (readAsDataURL : string -> completion string) (r : t)
  : promise (option string) * t :=
  match mediaRecorderRef r with
  | Some mediaRecorder =>
      if onstop_installed mediaRecorder then
        let blob := String.concat "" (chunksRef r) in
        let settled :=
          match readAsDataURL blob with
          | Returned url => Returned (split_comma_1 url)
          | Thrown error => Thrown error
          end in
        (Settled settled,
         mk false 0
            (Some (mkMediaRecorder (mr_state mediaRecorder) true false))
            (chunksRef r) (timerRef r)
            (match timerRef r with
             | Some timerId =>
                 if timer_set (timerRef r)
                 then clearInterval timerId (intervals r)
                 else intervals r
             | None => intervals r
             end))
      else (Pending, r)
  | None => (Pending, r)
  end.

End Hook.

(** ** A tab's session: the local events and their handlers *)

(** What a user can do in a tab. A send carries how the translation
    service will answer and what the clock will read. *)
Inductive LocalEvent :=
| EvSelectRole (role : Language)
| EvLogout
| EvInput (text : string)
| EvSendText (translateText : string -> Language -> completion TranslationResponse)
             (now date : Z)
| EvStartRecording
| EvStopRecording
    (translateAudioContent : option string -> Language -> completion TranslationResponse)
    (now date : Z)
| EvToggleReaction (msgId emoji0 : string).

Definition dispatch (ev : LocalEvent) : Handler unit :=
  match ev with
  | EvSelectRole role => selectRole role
  | EvLogout => handleLogout
  | EvInput text => update (setInputText text)
  | EvSendText translateText now date => handleSendText translateText now date
  | EvStartRecording => handleStartRecording
  | EvStopRecording translateAudioContent now date =>
      handleStopRecording translateAudioContent now date
  | EvToggleReaction msgId emoji0 => handleToggleReaction msgId emoji0
  end.

Fixpoint run (evs : list LocalEvent) (st : AppState) : AppState :=
  match evs with
  | [] => st
  | ev :: evs' => run evs' (state (dispatch ev st))
  end.

(** A session: the mount, then local events, from the initial state. *)
Definition session (roleParam codeParam storedAccess : option string)
    (evs : list LocalEvent) : AppState :=
  run evs (state (mount roleParam codeParam storedAccess initialState)).

(** ** Sample data *)

Definition heart : string := "❤️".
Definition fire : string := "🔥".

Definition m1 : ChatMessage :=
  mkChatMessage "m1" spanish "Hola" "Hello" 1700000000000 [] None.

(** A tab in the chat view with a role, a log and an open channel. *)
Definition tab (role : Language) (log : list ChatMessage) : AppState :=
  mkAppState CHAT (Some role) log "" false None true AppRecorder.init.

(** A translation service that answers every request. *)
Definition echo (text : string) (sourceLang : Language)
  : completion TranslationResponse :=
  Returned (mkTranslationResponse text ("[" +:+ text +:+ "]")).

(** ** Predicates of the statements *)

(** The log is untouched, or one new record without reactions is appended. *)
Definition appends_fresh (log log' : list ChatMessage) : Prop :=
  log' = log \/ exists m, reactions m = [] /\ log' = log ++ [m].

(** Every message holds each reaction at most once. *)
Definition reactions_unique (log : list ChatMessage) : Prop :=
  Forall (fun m => NoDup (reactions m)) log.

(** An effect that posts a record posts one that is in [log]. *)
Definition posted_in (log : list ChatMessage) (e : effect) : Prop :=
  match e with
  | PostMessage m => m ∈ log
  | _ => True
  end.

(** ** Deliveries in sequence *)

(** The channel hands the handler one record at a time. *)
Fixpoint receive (ms : list ChatMessage) (st : AppState) : AppState :=
  match ms with
  | [] => st
  | m :: ms' => receive ms' (state (onmessage m st))
  end.

(** ** The reaction summaries drawn under a message *)

Record ReactionSummary := mkReactionSummary {
  s_emoji : string;
  isMyReaction : bool;
  count : nat
}.

(** [new Set(l)]: each value is added unless it is already there, so the
    values come out in the order of their first occurrence. *)
Fixpoint Set_add_all (seen : list string) (l : list string) : list string :=
  match l with
  | [] => seen
  | x :: l' =>
      Set_add_all (if existsb (String.eqb x) seen then seen else seen ++ [x]) l'
  end.

Definition Set_from (l : list string) : list string := Set_add_all [] l.

(** [reactors.includes(myRole)]; a [null] role is no element. *)
Definition includes (role : option Language) (l : list Language) : bool :=
  match role with
  | Some r => existsb (Language_eqb r) l
  | None => false
  end.

Definition reactors (emoji0 : string) (msg : ChatMessage) : list Language :=
  map r_sender
    (List.filter (fun r => String.eqb (emoji r) emoji0) (reactions msg)).

Definition uniqueReactions (role : option Language) (msg : ChatMessage)
  : list ReactionSummary :=
  map (fun emoji0 =>
         let reactors := reactors emoji0 msg in
         mkReactionSummary emoji0 (includes role reactors) (length reactors))
      (Set_from (map emoji (reactions msg))).

(** ** The recording clock's display *)

(** [s.padStart(target, pad)] for a pad of one character. *)
Definition padStart (target : nat) (pad : ascii) (s : string) : string :=
  string_of_list_ascii (repeat pad (target - String.length s)) +:+ s.

Definition MAX_SAFE_INTEGER : Z := 2 ^ 53 - 1.

(** [seconds] is [None] for [undefined] and a whole number otherwise. On
    [undefined] both parts are [NaN]. On a whole number within the safe
    integers the division and the remainder of doubles are exact:
    [Math.floor(seconds / 60)] is [Z.div], [seconds % 60] is [Z.rem], and
    both print in decimal. Numbers beyond the safe integers are not
    covered: the answer is [None]. *)
Definition formatTime (seconds : option Z) : option string :=
  match seconds with
  | None => Some "NaN:NaN"
  | Some seconds =>
      if (- MAX_SAFE_INTEGER <=? seconds) && (seconds <=? MAX_SAFE_INTEGER)
      then
        let mins := seconds / 60 in
        let secs := Z.rem seconds 60 in
        Some (toString mins +:+ ":" +:+ padStart 2 "0" (toString secs))
      else None
  end.

(** What the [App] reads as [recordingTime]: the object its recorder
    returns has no such field. *)
Definition App_recordingTime (r : AppRecorder.t) : option Z := None.

(** The character of a decimal digit. *)
Definition digit_char (d : Z) : ascii := ascii_of_N (48 + Z.to_N d).

(** The two decimal digits of a number below one hundred. *)
Definition two_digits (r : Z) : string :=
  String (digit_char (r / 10)) (String (digit_char (r mod 10)) "").

(** ** Recording from the keyboard *)

Section KeyboardRecording.

Variable translateAudioContent :
  option string -> Language -> completion TranslationResponse.

Definition is_record_key (key : string) : bool :=
  String.eqb key " " || String.eqb key "Enter".

Definition handleKeyDownRecording (key : string) (repeat : bool)
  : Handler unit :=
  fun st =>
    if (0 <? Z.of_nat (String.length (trim (inputText st)))) || isProcessing st
    then ret tt st
    else if is_record_key key && negb repeat
    then handleStartRecording st
    else ret tt st.

Definition handleKeyUpRecording (key : string) (now date : Z) : Handler unit :=
  fun st =>
    if (0 <? Z.of_nat (String.length (trim (inputText st)))) || isProcessing st
    then ret tt st
    else if is_record_key key
    then handleStopRecording translateAudioContent now date st
    else ret tt st.

End KeyboardRecording.

(** ** Events of the recorder hook in sequence *)

(** The recorder delivers the blobs of [ds], one event each. *)
Fixpoint feed (ds : list string) (r : Hook.t) : Hook.t :=
  match ds with
  | [] => r
  | d :: ds' => feed ds' (Hook.ondataavailable d r)
  end.


(** The blobs that are not empty. *)
Definition nonempty_blobs (ds : list string) : list string :=
  List.filter (fun d => 0 <? Z.of_nat (String.length d)) ds.


(** ** Playing voice memos ([toggleAudio]) *)

Module Playback.

(** An [Audio] element: its source, its [paused] attribute, and whether
    the promise of its [play()] has had its callback run. *)
Record Audio := mkAudio {
  src : string;
  paused : bool;
  settled : bool
}.

(** [audios] holds every element created so far; [audioPlayerRef] is the
    position of the one the ref points to. *)
Record t := mk {
  playingAudioId : option string;
  audioAnnounce : string;
  audios : list Audio;
  audioPlayerRef : option nat
}.

Definition init : t := mk None "" [] None.

Definition pause_at (i : nat) (l : list Audio) : list Audio :=
  match l !! i with
  | Some a => <[i := mkAudio (src a) true (settled a)]> l
  | None => l
  end.

(** [audioPlayerRef.current?.pause()]. *)
Definition pause_current (s : t) : list Audio :=
  match audioPlayerRef s with
  | Some i => pause_at i (audios s)
  | None => audios s
  end.

Definition is_playing_id (s : t) (msgId : string) : bool :=
  match playingAudioId s with
  | Some i => String.eqb i msgId
  | None => false
  end.

(** The body of the handler. [starts]: whether [play()] takes the new
    element out of [paused] (the browser may refuse). The callbacks of the
    promise of [play()] are not run here: they are events of their own. *)
Definition toggleAudio (msgId url : string) (starts : bool) (s : t) : t :=
  if is_playing_id s msgId then
    mk None "Voice memo paused" (pause_current s) (audioPlayerRef s)
  else
    let silenced := pause_current s in
    let audio := length silenced in
    mk (Some msgId) (audioAnnounce s)
       (silenced ++ [mkAudio url (negb starts) false]) (Some audio).

(** The [then] callback of the element at [i], once. *)
Definition onfulfilled (i : nat) (s : t) : t :=
  match audios s !! i with
  | Some a =>
      if settled a then s
      else mk (playingAudioId s) "Voice memo playing"
              (<[i := mkAudio (src a) (paused a) true]> (audios s))
              (audioPlayerRef s)
  | None => s
  end.

(** The [catch] callback of the element at [i], once. *)
Definition onrejected (i : nat) (s : t) : outcome t unit :=
  match audios s !! i with
  | Some a =>
      if settled a then mkOutcome (Returned tt) s []
      else mkOutcome (Returned tt)
             (mk None "Error playing voice memo"
                 (<[i := mkAudio (src a) (paused a) true]> (audios s))
                 (audioPlayerRef s))
             [ConsoleError "Playback failed"]
  | None => mkOutcome (Returned tt) s []
  end.

(** The [ended] event of the element at [i]: it fires on an element that
    was not paused, and the element is paused from then on. *)
Definition onended (i : nat) (s : t) : t :=
  match audios s !! i with
  | Some a =>
      if paused a then s
      else mk None "Voice memo finished"
              (<[i := mkAudio (src a) true (settled a)]> (audios s))
              (audioPlayerRef s)
  | None => s
  end.

(** What may happen, in any order: a toggle, the promise of an element's
    [play()] being fulfilled or rejected, an element reaching its end. *)
Inductive Event :=
| Toggle (msgId url : string) (starts : bool)
| Fulfilled (i : nat)
| Rejected (i : nat)
| Ended (i : nat).

Definition step (ev : Event) (s : t) : t :=
  match ev with
  | Toggle msgId url starts => toggleAudio msgId url starts s
  | Fulfilled i => onfulfilled i s
  | Rejected i => state (onrejected i s)
  | Ended i => onended i s
  end.

Fixpoint run (evs : list Event) (s : t) : t :=
  match evs with
  | [] => s
  | ev :: evs' => run evs' (step ev s)
  end.

(** The elements that are not paused. *)
Definition playing_now (s : t) : list Audio :=
  List.filter (fun a => negb (paused a)) (audios s).

End Playback.

(** ** The lock screen ([handleUnlock]) *)

Section Unlock.

(** [String.prototype.toUpperCase], the platform's. *)
Variable toUpperCase : string -> string.

Record LockForm := mkLockForm {
  accessInput : string;
  authError : bool
}.

(** [storage] is the value stored under [besos_access_granted]. *)
Definition handleUnlock (form : LockForm) (storage : option string)
    (st : AppState) : LockForm * option string * AppState :=
  if String.eqb (toUpperCase (trim (accessInput form))) ACCESS_CODE
  then (mkLockForm (accessInput form) false, Some "true",
        setAuthStage ROLE_SELECT st)
  else (mkLockForm "" true, storage, st).

End Unlock.

(** An uppercasing of the letters a to z, as [toUpperCase] does on them. *)
Definition upper_ascii (s : string) : string :=
  string_of_bytes
    (map (fun b => if (97 <=? b) && (b <=? 122) then b - 32 else b)%N
         (bytes_of s)).

(** ** Invite links *)

(** A role as the string it is in the source. *)
Definition Language_to_string (role : Language) : string :=
  match role with english => "english" | spanish => "spanish" end.

(** The link [handleCopyInvite] writes to the clipboard. *)
Definition invite_link (baseUrl : string) (role : Language) : string :=
  baseUrl +:+ "?role=" +:+ Language_to_string role +:+ "&code=" +:+ ACCESS_CODE.

(** ** More predicates of the statements *)

(** Two records that agree on everything but their reactions. *)
Definition same_core (m m' : ChatMessage) : Prop :=
  id m' = id m /\ sender m' = sender m /\
  originalText m' = originalText m /\ translatedText m' = translatedText m /\
  timestamp m' = timestamp m /\ audioUrl m' = audioUrl m.

(** [log'] has, at every position of [log], a record with the same core. *)
Definition extends_log (log log' : list ChatMessage) : Prop :=
  forall i msg, log !! i = Some msg ->
                exists msg', log' !! i = Some msg' /\ same_core msg msg'.

(** The chat view is shown exactly when a role is bound. *)
Definition stage_matches_role (st : AppState) : Prop :=
  authStage st = CHAT <-> myRole st <> None.

Definition is_post (e : effect) : bool :=
  match e with PostMessage _ => true | _ => false end.

(** Only the element the ref points to may be out of [paused]. *)
Definition Playback_inv (s : Playback.t) : Prop :=
  forall i a, Playback.audios s !! i = Some a -> Playback.paused a = false ->
              Playback.audioPlayerRef s = Some i.

(** * Properties *)

(** Runs a handler written with the monad's operations. *)
Ltac run_handler :=
  unfold mbind, handler_bind, mret, handler_ret, bind, try_catch_finally,
    postMessage, call, perform, update, ret; cbn.

(** ** Examples *)

Example trim_ex1 : trim "  hola 	" = "hola".
Proof. reflexivity. Qed.
Example trim_ex2 : trim "    " = "".
Proof. reflexivity. Qed.
Example trim_ex3 : trim "  hola　﻿ " = "hola".
Proof. reflexivity. Qed.
Example trim_ex4 : trim " a b " = "a b".
Proof. reflexivity. Qed.
Example trim_ex5 : trim "x yz" = "x yz".
Proof. reflexivity. Qed.
Example trim_ex6 : trim " BESOS  bc " = "BESOS  bc".
Proof. reflexivity. Qed.
Example toString_ex : toString 1700000000000 = "1700000000000".
Proof. reflexivity. Qed.


(** ** Arrays *)

Section FindFirst.
Context {A : Type} (p : A -> bool).

Lemma find_first_None (l : list A) :
  find_first p l = None <-> Forall (fun x => p x = false) l.
Proof.
  induction l as [|x l IH]; simpl.
  - split; [constructor | reflexivity].
  - destruct (p x) eqn:Hx.
    + split; [discriminate | intros H; inversion H; congruence].
    + destruct (find_first p l) as [i|]; simpl.
      * split; [discriminate |].
        intros H; inversion H; subst.
        destruct IH as [_ IH]. specialize (IH ltac:(assumption)). discriminate.
      * split; [| reflexivity].
        intros _. constructor; [assumption | apply IH; reflexivity].
Qed.

Lemma find_first_Some (l : list A) (i : nat) :
  find_first p l = Some i ->
  exists x, l !! i = Some x /\ p x = true /\
            forall j y, (j < i)%nat -> l !! j = Some y -> p y = false.
Proof.
  revert i. induction l as [|x l IH]; simpl; intros i H; [discriminate|].
  destruct (p x) eqn:Hx.
  - injection H as <-. exists x. repeat split; auto. intros; lia.
  - destruct (find_first p l) as [k|]; simpl in H; [|discriminate].
    injection H as <-.
    destruct (IH k eq_refl) as (y & Hy & Hpy & Hbefore).
    exists y. repeat split; auto.
    intros [|j] z Hj Hz; simpl in Hz.
    + congruence.
    + apply (Hbefore j); [lia | assumption].
Qed.

Lemma find_first_lt (l : list A) (i : nat) :
  find_first p l = Some i -> (i < length l)%nat.
Proof.
  intros H. destruct (find_first_Some l i H) as (x & Hx & _).
  apply lookup_lt_Some in Hx. exact Hx.
Qed.

(** Appending after a list without a match: the match is the new last. *)
Lemma find_first_app_new (l : list A) (x : A) :
  find_first p l = None -> p x = true ->
  find_first p (l ++ [x]) = Some (length l).
Proof.
  induction l as [|y l IH]; simpl; intros H Hx.
  - rewrite Hx. reflexivity.
  - destruct (p y); [discriminate|].
    destruct (find_first p l); [discriminate|].
    rewrite IH; auto.
Qed.

(** Overwriting the first match with another match keeps the position. *)
Lemma find_first_insert (l : list A) (i : nat) (x : A) :
  find_first p l = Some i -> p x = true ->
  find_first p (<[i := x]> l) = Some i.
Proof.
  revert i. induction l as [|y l IH]; simpl; intros i H Hx; [discriminate|].
  destruct (p y) eqn:Hy.
  - injection H as <-. simpl. rewrite Hx. reflexivity.
  - destruct (find_first p l) as [k|]; simpl in H; [|discriminate].
    injection H as <-. simpl. rewrite Hy.
    rewrite (IH k); auto.
Qed.

Lemma findIndex_found (l : list A) (i : nat) :
  find_first p l = Some i -> findIndex p l = Z.of_nat i.
Proof. unfold findIndex. intros ->. reflexivity. Qed.

Lemma findIndex_missing (l : list A) :
  find_first p l = None -> findIndex p l = -1.
Proof. unfold findIndex. intros ->. reflexivity. Qed.

(** [findIndex] answers [-1] or a position of the array. *)
Lemma findIndex_range (l : list A) :
  findIndex p l = -1 \/ 0 <= findIndex p l < Z.of_nat (length l).
Proof.
  unfold findIndex. destruct (find_first p l) as [i|] eqn:H; [right|left; reflexivity].
  apply find_first_lt in H. lia.
Qed.

End FindFirst.

(** ** The merge handler *)

Lemma merge_found (incoming : ChatMessage) (log : list ChatMessage) (i : nat) :
  find_first (same_id incoming) log = Some i ->
  merge incoming log = <[i := incoming]> log.
Proof.
  intros H. unfold merge. fold (same_id incoming).
  rewrite (findIndex_found _ _ _ H).
  replace (Z.of_nat i =? -1) with false by (symmetry; apply Z.eqb_neq; lia).
  simpl. unfold array_set. rewrite Nat2Z.id. reflexivity.
Qed.

Lemma merge_missing (incoming : ChatMessage) (log : list ChatMessage) :
  find_first (same_id incoming) log = None ->
  merge incoming log = log ++ [incoming].
Proof.
  intros H. unfold merge. fold (same_id incoming).
  rewrite (findIndex_missing _ _ H). reflexivity.
Qed.

Lemma same_id_true (incoming m : ChatMessage) :
  same_id incoming m = true <-> id m = id incoming.
Proof. apply String.eqb_eq. Qed.

Lemma same_id_false (incoming m : ChatMessage) :
  same_id incoming m = false <-> id m <> id incoming.
Proof. apply String.eqb_neq. Qed.

Lemma find_first_same_id_None (incoming : ChatMessage) (log : list ChatMessage) :
  find_first (same_id incoming) log = None <->
  forall m, m ∈ log -> id m <> id incoming.
Proof.
  rewrite find_first_None, Forall_forall. split; intros H m Hm.
  - apply same_id_false, H, Hm.
  - apply same_id_false, H, Hm.
Qed.

(** C1. The merge handler is an upsert. If some entry of the log carries
    the incoming id, the first such entry is overwritten, whole, by the
    incoming record at its position and the log keeps its length; if no
    entry carries it, the incoming record is appended at the end. No entry
    is removed: the log never gets shorter and every entry with another id
    stays where it was. *)
Theorem C1_merge_upsert (st : AppState) (incoming : ChatMessage) :
  let log := messages st in
  let log' := messages (state (onmessage incoming st)) in
  ((exists m, m ∈ log /\ id m = id incoming) ->
     exists i old,
       log !! i = Some old /\ id old = id incoming /\
       (forall j y, (j < i)%nat -> log !! j = Some y -> id y <> id incoming) /\
       log' = <[i := incoming]> log /\
       log' !! i = Some incoming /\
       length log' = length log) /\
  ((forall m, m ∈ log -> id m <> id incoming) -> log' = log ++ [incoming]) /\
  (length log <= length log')%nat /\
  (forall j y, log !! j = Some y -> id y <> id incoming -> log' !! j = Some y).
Proof.
  simpl. set (log := messages st).
  destruct (find_first (same_id incoming) log) as [i|] eqn:Hf.
  - pose proof (merge_found _ _ _ Hf) as Hm.
    destruct (find_first_Some _ _ _ Hf) as (old & Hold & Hid & Hbefore).
    pose proof (find_first_lt _ _ _ Hf) as Hlt.
    repeat split.
    + intros _. exists i, old. rewrite Hm.
      repeat split; auto.
      * apply same_id_true, Hid.
      * intros j y Hj Hy. apply same_id_false. eapply Hbefore; eauto.
      * apply list_lookup_insert_eq. exact Hlt.
      * apply length_insert.
    + intros Hnone. apply find_first_same_id_None in Hnone. congruence.
    + rewrite Hm, length_insert. lia.
    + intros j y Hy Hne. rewrite Hm.
      destruct (decide (i = j)) as [->|Hij].
      * rewrite Hold in Hy. injection Hy as ->.
        apply same_id_true in Hid. contradiction.
      * rewrite list_lookup_insert_ne; auto.
  - pose proof (merge_missing _ _ Hf) as Hm.
    pose proof (proj1 (find_first_same_id_None _ _) Hf) as Hnone.
    repeat split.
    + intros (m & Hin & Hid). exfalso. exact (Hnone m Hin Hid).
    + intros _. exact Hm.
    + rewrite Hm, length_app. lia.
    + intros j y Hy _. rewrite Hm. apply lookup_app_l_Some. exact Hy.
Qed.

Lemma same_id_ext (m1 m2 : ChatMessage) :
  id m1 = id m2 -> same_id m1 = same_id m2.
Proof. unfold same_id. intros ->. reflexivity. Qed.

(** A second delivery under the same id overwrites the first. *)
Lemma merge_merge_same_id (m1 m2 : ChatMessage) (log : list ChatMessage) :
  id m1 = id m2 -> merge m2 (merge m1 log) = merge m2 log.
Proof.
  intros Hid. pose proof (same_id_ext _ _ Hid) as Hext.
  assert (Hself : same_id m2 m1 = true) by (apply same_id_true, Hid).
  destruct (find_first (same_id m2) log) as [i|] eqn:Hf.
  - rewrite (merge_found m2 log i Hf).
    rewrite (merge_found m1 log i) by (rewrite Hext; exact Hf).
    rewrite (merge_found m2 (<[i := m1]> log) i)
      by (apply find_first_insert; assumption).
    apply list_insert_insert_eq.
  - rewrite (merge_missing m2 log Hf).
    rewrite (merge_missing m1 log) by (rewrite Hext; exact Hf).
    rewrite (merge_found m2 (log ++ [m1]) (length log))
      by (apply find_first_app_new; assumption).
    replace (length log) with (length log + 0)%nat at 1 by lia.
    rewrite insert_app_r. reflexivity.
Qed.

(** After a delivery, the record found under its id is the delivered one. *)
Lemma stored_merge (incoming : ChatMessage) (log : list ChatMessage) :
  stored (id incoming) (merge incoming log) = Some incoming.
Proof.
  assert (Hself : same_id incoming incoming = true) by (apply same_id_true; reflexivity).
  unfold stored. fold (same_id incoming).
  destruct (find_first (same_id incoming) log) as [i|] eqn:Hf.
  - rewrite (merge_found _ _ _ Hf).
    rewrite (find_first_insert _ _ _ _ Hf Hself).
    apply list_lookup_insert_eq. eapply find_first_lt; eauto.
  - rewrite (merge_missing _ _ Hf).
    rewrite (find_first_app_new _ _ _ Hf Hself).
    rewrite lookup_app_r by lia.
    rewrite Nat.sub_diag. reflexivity.
Qed.

(** C2. Two deliveries under one id: whichever is applied last is the
    record stored under that id afterwards, whole, so its reactions are
    exactly those of the last delivery (in both orders); the log is the
    one the last delivery alone would have produced. *)
Theorem C2_merge_last_write_wins (st : AppState) (m1 m2 : ChatMessage) :
  id m1 = id m2 ->
  let after12 := messages (state (onmessage m2 (state (onmessage m1 st)))) in
  let after21 := messages (state (onmessage m1 (state (onmessage m2 st)))) in
  stored (id m1) after12 = Some m2 /\
  stored (id m1) after21 = Some m1 /\
  reactions <$> stored (id m1) after12 = Some (reactions m2) /\
  reactions <$> stored (id m1) after21 = Some (reactions m1) /\
  after12 = merge m2 (messages st) /\
  after21 = merge m1 (messages st).
Proof.
  intros Hid. simpl.
  rewrite (merge_merge_same_id m1 m2) by exact Hid.
  rewrite (merge_merge_same_id m2 m1) by (symmetry; exact Hid).
  rewrite stored_merge.
  rewrite Hid at 1 2. rewrite stored_merge.
  repeat split.
Qed.

Lemma C2_witness :
  let st := tab english [m1] in
  let first := withReactions m1 [mkReaction heart english] in
  let last := withReactions m1 [mkReaction fire spanish] in
  reactions <$> stored "m1"
                  (messages (state (onmessage last (state (onmessage first st)))))
  = Some [mkReaction fire spanish] /\
  reactions <$> stored "m1"
                  (messages (state (onmessage first (state (onmessage last st)))))
  = Some [mkReaction heart english].
Proof.
  intros st first last.
  destruct (C2_merge_last_write_wins st first last eq_refl)
    as (_ & _ & H12 & H21 & _).
  split; [exact H12 | exact H21].
Defined.

(** The merge handler on a log of two: a known id is overwritten in
    place, an unknown one is appended. *)
Example merge_known :
  let m2 := mkChatMessage "m2" english "Hi" "Hola" 2 [] None in
  merge (withReactions m1 [mkReaction fire english]) [m1; m2]
  = [withReactions m1 [mkReaction fire english]; m2].
Proof. reflexivity. Qed.

Example merge_unknown :
  let m2 := mkChatMessage "m2" english "Hi" "Hola" 2 [] None in
  merge m2 [m1] = [m1; m2].
Proof. reflexivity. Qed.

(** ** The reaction toggle *)

Lemma lookup_map {A B} (f : A -> B) (l : list A) (i : nat) :
  map f l !! i = f <$> (l !! i).
Proof.
  revert i. induction l as [|x l IH]; intros [|i]; simpl; auto.
Qed.

Lemma Language_eqb_eq (a b : Language) : Language_eqb a b = true <-> a = b.
Proof. destruct a, b; simpl; split; congruence. Qed.

Lemma reaction_matches_true (e : string) (role : Language) (r : Reaction) :
  reaction_matches e role r = true <-> r = mkReaction e role.
Proof.
  unfold reaction_matches. rewrite andb_true_iff, String.eqb_eq, Language_eqb_eq.
  destruct r as [e' s']; simpl. split.
  - intros [-> ->]. reflexivity.
  - intros H. injection H as -> ->. auto.
Qed.

Lemma reaction_matches_self (e : string) (role : Language) :
  reaction_matches e role (mkReaction e role) = true.
Proof. apply reaction_matches_true. reflexivity. Qed.

Section ToggleReactions.
Variables (e : string) (role : Language).

Let p := reaction_matches e role.

Lemma toggleReactions_absent (rs : list Reaction) :
  find_first p rs = None ->
  toggleReactions e role rs = rs ++ [mkReaction e role].
Proof.
  intros H. unfold toggleReactions. fold p.
  rewrite (findIndex_missing _ _ H). reflexivity.
Qed.

Lemma toggleReactions_present (rs : list Reaction) (k : nat) :
  find_first p rs = Some k ->
  toggleReactions e role rs = delete k rs.
Proof.
  intros H. unfold toggleReactions. fold p.
  rewrite (findIndex_found _ _ _ H).
  replace (Z.of_nat k >? -1) with true by (symmetry; apply Z.gtb_lt; lia).
  unfold splice1. rewrite Nat2Z.id. reflexivity.
Qed.

Lemma find_first_absent_iff (rs : list Reaction) :
  find_first p rs = None <-> mkReaction e role ∉ rs.
Proof.
  rewrite find_first_None, Forall_forall. split.
  - intros H Hin. specialize (H _ Hin).
    unfold p in H. rewrite reaction_matches_self in H. discriminate.
  - intros H x Hx. destruct (p x) eqn:Hpx; [|reflexivity].
    apply reaction_matches_true in Hpx. subst x. contradiction.
Qed.

Lemma count_zero_absent (rs : list Reaction) :
  count_matches e role rs = 0%nat -> find_first p rs = None.
Proof.
  unfold count_matches. fold p.
  induction rs as [|x rs IH]; simpl; [reflexivity|].
  destruct (p x); simpl; [discriminate|].
  intros H. rewrite (IH H). reflexivity.
Qed.

(** Removing the only match leaves none. *)
Lemma find_first_delete_only (rs : list Reaction) (k : nat) :
  find_first p rs = Some k ->
  (count_matches e role rs <= 1)%nat ->
  find_first p (delete k rs) = None.
Proof.
  unfold count_matches. fold p.
  revert k. induction rs as [|x rs IH]; simpl; intros k H Hc; [discriminate|].
  destruct (p x) eqn:Hx.
  - injection H as <-. simpl in *.
    apply count_zero_absent. unfold count_matches. fold p. lia.
  - destruct (find_first p rs) as [j|] eqn:Hj; simpl in H; [|discriminate].
    injection H as <-. simpl. rewrite Hx.
    rewrite (IH j); auto.
Qed.

(** One toggle: the first match is removed, or the pair is appended. *)
Lemma toggleReactions_once (rs : list Reaction) :
  ((mkReaction e role ∉ rs) /\
   toggleReactions e role rs = rs ++ [mkReaction e role]) \/
  (exists k, rs !! k = Some (mkReaction e role) /\
             (forall j, (j < k)%nat -> rs !! j ≠ Some (mkReaction e role)) /\
             toggleReactions e role rs = delete k rs).
Proof.
  destruct (find_first p rs) as [k|] eqn:H.
  - right. exists k.
    destruct (find_first_Some _ _ _ H) as (x & Hx & Hpx & Hbefore).
    apply reaction_matches_true in Hpx. subst x.
    repeat split; auto using toggleReactions_present.
    intros j Hj Hjx. specialize (Hbefore j _ Hj Hjx).
    unfold p in Hbefore. rewrite reaction_matches_self in Hbefore. discriminate.
  - left. split; [apply find_first_absent_iff, H | apply toggleReactions_absent, H].
Qed.

(** Two toggles of an absent pair give the sequence back. *)
Lemma toggleReactions_twice_absent (rs : list Reaction) :
  mkReaction e role ∉ rs ->
  toggleReactions e role (toggleReactions e role rs) = rs.
Proof.
  intros H. apply find_first_absent_iff in H.
  rewrite (toggleReactions_absent rs H).
  rewrite (toggleReactions_present _ (length rs))
    by (apply find_first_app_new; [exact H | apply reaction_matches_self]).
  rewrite delete_middle. apply app_nil_r.
Qed.

(** Two toggles of a pair present once give the same reactions, the
    toggled one moved to the end. *)
Lemma toggleReactions_twice_perm (rs : list Reaction) :
  (count_matches e role rs <= 1)%nat ->
  toggleReactions e role (toggleReactions e role rs) ≡ₚ rs.
Proof.
  intros Hc. destruct (find_first p rs) as [k|] eqn:H.
  - rewrite (toggleReactions_present rs k H).
    rewrite toggleReactions_absent by (apply find_first_delete_only; assumption).
    destruct (find_first_Some _ _ _ H) as (x & Hx & Hpx & _).
    apply reaction_matches_true in Hpx. subst x.
    rewrite (delete_Permutation rs k _ Hx) at 2.
    symmetry. apply Permutation_cons_append.
  - rewrite toggleReactions_twice_absent; [reflexivity|].
    apply find_first_absent_iff, H.
Qed.

End ToggleReactions.

Lemma toggleInMessage_fst (open : bool) (msgId e : string) (role : Language)
    (msg : ChatMessage) :
  fst (toggleInMessage open msgId e role msg) = toggled msgId e role msg.
Proof.
  unfold toggleInMessage, toggled. destruct (String.eqb (id msg) msgId); reflexivity.
Qed.

Lemma toggle_messages (st : AppState) (msgId e : string) (role : Language) :
  myRole st = Some role ->
  messages (state (handleToggleReaction msgId e st))
  = map (toggled msgId e role) (messages st).
Proof.
  intros Hrole. unfold handleToggleReaction. rewrite Hrole. simpl.
  rewrite map_map. apply map_ext. intros msg. apply toggleInMessage_fst.
Qed.

Lemma toggle_myRole (st : AppState) (msgId e : string) :
  myRole (state (handleToggleReaction msgId e st)) = myRole st.
Proof.
  unfold handleToggleReaction. destruct (myRole st) eqn:H; simpl; auto.
Qed.

Lemma toggle_lookup (st : AppState) (msgId e : string) (role : Language)
    (i : nat) (msg : ChatMessage) :
  myRole st = Some role ->
  messages st !! i = Some msg ->
  messages (state (handleToggleReaction msgId e st)) !! i
  = Some (toggled msgId e role msg).
Proof.
  intros Hrole Hi. rewrite (toggle_messages _ _ _ _ Hrole).
  rewrite lookup_map, Hi. reflexivity.
Qed.

Lemma toggled_target (msgId e : string) (role : Language) (msg : ChatMessage) :
  id msg = msgId ->
  toggled msgId e role msg
  = withReactions msg (toggleReactions e role (reactions msg)).
Proof.
  intros H. unfold toggled.
  rewrite (proj2 (String.eqb_eq _ _) H). reflexivity.
Qed.

Lemma toggled_other (msgId e : string) (role : Language) (msg : ChatMessage) :
  id msg <> msgId -> toggled msgId e role msg = msg.
Proof.
  intros H. unfold toggled.
  rewrite (proj2 (String.eqb_neq _ _) H). reflexivity.
Qed.

(** C3, as the code has it. For a message with id [msgId] at position [i]
    and a bound role: one toggle removes the first reaction carrying the
    (emoji, role) pair when there is one and appends the pair otherwise;
    when the message holds the pair at most once, two toggles in a row give
    back the same reactions up to order (the toggled pair may have moved
    to the end), and the very same sequence when the pair was absent. *)
Theorem C3_toggle_twice (st : AppState) (msgId e : string) (role : Language)
    (i : nat) (msg : ChatMessage) :
  myRole st = Some role ->
  messages st !! i = Some msg ->
  id msg = msgId ->
  let st1 := state (handleToggleReaction msgId e st) in
  let st2 := state (handleToggleReaction msgId e st1) in
  exists msg1 msg2,
    messages st1 !! i = Some msg1 /\
    messages st2 !! i = Some msg2 /\
    (((mkReaction e role ∉ reactions msg) /\
      reactions msg1 = reactions msg ++ [mkReaction e role]) \/
     (exists k, reactions msg !! k = Some (mkReaction e role) /\
                (forall j, (j < k)%nat ->
                           reactions msg !! j ≠ Some (mkReaction e role)) /\
                reactions msg1 = delete k (reactions msg))) /\
    ((count_matches e role (reactions msg) <= 1)%nat ->
       reactions msg2 ≡ₚ reactions msg) /\
    (mkReaction e role ∉ reactions msg -> reactions msg2 = reactions msg).
Proof.
  intros Hrole Hi Hid st1 st2.
  pose proof (toggle_lookup st msgId e role i msg Hrole Hi) as H1.
  rewrite (toggled_target _ _ _ _ Hid) in H1.
  assert (Hrole1 : myRole st1 = Some role)
    by (unfold st1; rewrite toggle_myRole; exact Hrole).
  pose proof (toggle_lookup st1 msgId e role i _ Hrole1 H1) as H2.
  rewrite toggled_target in H2 by exact Hid.
  eexists _, _. split; [exact H1|]. split; [exact H2|]. simpl.
  split; [apply toggleReactions_once|].
  split; [apply toggleReactions_twice_perm | apply toggleReactions_twice_absent].
Qed.

(** ** More on the toggle *)

(** C3, as stated, fails: with reactions [heart, fire] of the English
    speaker, toggling heart twice as the English speaker leaves
    [fire, heart], not the original sequence. *)
Lemma C3_counterexample :
  let msg := withReactions m1 [mkReaction heart english; mkReaction fire english] in
  let st := tab english [msg] in
  let st1 := state (handleToggleReaction "m1" heart st) in
  let st2 := state (handleToggleReaction "m1" heart st1) in
  messages st !! 0%nat = Some msg /\
  reactions <$> messages st1 !! 0%nat = Some [mkReaction fire english] /\
  reactions <$> messages st2 !! 0%nat
    = Some [mkReaction fire english; mkReaction heart english] /\
  reactions <$> messages st2 !! 0%nat ≠ Some (reactions msg).
Proof.
  repeat split. vm_compute. discriminate.
Qed.

(** With the pair held twice (a record received from the channel is
    stored as it comes), two toggles remove both copies. *)
Example toggle_twice_duplicates :
  toggleReactions heart english
    (toggleReactions heart english
       [mkReaction heart english; mkReaction heart english]) = [].
Proof. reflexivity. Qed.

Lemma C3_witness :
  let msg := withReactions m1 [mkReaction heart english; mkReaction fire english] in
  let st := tab english [msg] in
  let st1 := state (handleToggleReaction "m1" heart st) in
  let st2 := state (handleToggleReaction "m1" heart st1) in
  exists msg1 msg2,
    messages st1 !! 0%nat = Some msg1 /\
    messages st2 !! 0%nat = Some msg2 /\
    reactions msg1 = [mkReaction fire english] /\
    reactions msg2 ≡ₚ reactions msg.
Proof.
  intros msg st st1 st2.
  destruct (C3_toggle_twice st "m1" heart english 0 msg eq_refl eq_refl eq_refl)
    as (msg1 & msg2 & H1 & H2 & _ & Hperm & _).
  exists msg1, msg2. split; [exact H1|]. split; [exact H2|]. split.
  - vm_compute in H1. injection H1 as <-. reflexivity.
  - apply Hperm. vm_compute. lia.
Defined.

Lemma map_toggled_absent (msgId e : string) (role : Language)
    (log : list ChatMessage) :
  (forall m, m ∈ log -> id m <> msgId) ->
  map (toggled msgId e role) log = log.
Proof.
  induction log as [|m log IH]; simpl; intros H; [reflexivity|].
  rewrite toggled_other by (apply H; left).
  rewrite IH; [reflexivity|]. intros m' Hm'. apply H. right. exact Hm'.
Qed.

Lemma toggle_trace_absent (open : bool) (msgId e : string) (role : Language)
    (log : list ChatMessage) :
  (forall m, m ∈ log -> id m <> msgId) ->
  concat (map snd (map (toggleInMessage open msgId e role) log)) = [].
Proof.
  induction log as [|m log IH]; simpl; intros H; [reflexivity|].
  unfold toggleInMessage at 1.
  rewrite (proj2 (String.eqb_neq _ _) (H m ltac:(left))). simpl.
  apply IH. intros m' Hm'. apply H. right. exact Hm'.
Qed.

(** C4, as the code has it. A toggle on an id that no entry of the log
    carries is a silent no-op: the handler returns normally (no error is
    raised), the log is unchanged and nothing is posted. Once a record with
    that id has been merged, the same toggle takes effect on it. *)
Theorem C4_toggle_unknown_id (st : AppState) (msgId e : string) :
  (forall m, m ∈ messages st -> id m <> msgId) ->
  let o := handleToggleReaction msgId e st in
  result o = Returned tt /\
  messages (state o) = messages st /\
  trace o = [] /\
  (forall incoming role,
     id incoming = msgId -> myRole st = Some role ->
     let st' := state (onmessage incoming st) in
     stored msgId (messages (state (handleToggleReaction msgId e st')))
     = Some (withReactions incoming
               (toggleReactions e role (reactions incoming)))).
Proof.
  intros Habsent o. unfold o.
  split; [|split; [|split]].
  - unfold handleToggleReaction. destruct (myRole st); reflexivity.
  - destruct (myRole st) as [role|] eqn:Hrole.
    + rewrite (toggle_messages _ _ _ _ Hrole). apply map_toggled_absent, Habsent.
    + unfold handleToggleReaction. rewrite Hrole. reflexivity.
  - unfold handleToggleReaction. destruct (myRole st) as [role|]; [|reflexivity].
    simpl. apply toggle_trace_absent, Habsent.
  - intros incoming role Hid Hrole. set (st' := state (onmessage incoming st)).
    assert (Hrole' : myRole st' = Some role) by exact Hrole.
    rewrite (toggle_messages _ _ _ _ Hrole').
    subst msgId. unfold st'. simpl.
    apply find_first_same_id_None in Habsent.
    rewrite (merge_missing _ _ Habsent).
    rewrite map_app. simpl. rewrite toggled_target by reflexivity.
    rewrite map_toggled_absent by (apply find_first_same_id_None, Habsent).
    unfold stored.
    rewrite (find_first_app_new _ (messages st)); [| exact Habsent |].
    + rewrite lookup_app_r by lia. rewrite Nat.sub_diag. reflexivity.
    + simpl. apply String.eqb_refl.
Qed.

(** C4, as stated, fails: in a tab whose log is empty, the toggle on
    "m1" returns normally; it throws nothing. *)
Lemma C4_counterexample :
  let st := tab spanish [] in
  let o := handleToggleReaction "m1" fire st in
  Forall (fun m => id m <> "m1") (messages st) /\
  result o = Returned tt /\
  (forall reason, result o <> Thrown reason) /\
  state o = st /\ trace o = [].
Proof.
  repeat split; try constructor. intros reason. discriminate.
Qed.

Lemma C4_witness :
  let st := tab spanish [withReactions m1 [mkReaction heart english]] in
  let o := handleToggleReaction "m2" fire st in
  result o = Returned tt /\ messages (state o) = messages st /\ trace o = [].
Proof.
  intros st o.
  assert (Habsent : forall m, m ∈ messages st -> id m <> "m2").
  { intros m Hm. apply list_elem_of_singleton in Hm. subst m. discriminate. }
  destruct (C4_toggle_unknown_id st "m2" fire Habsent) as (H1 & H2 & H3 & _).
  repeat split; assumption.
Defined.


(** ** What each local handler does to the log *)

Lemma handleTranslationResult_messages (now date : Z) (res : TranslationResponse)
    (lang : Language) (audio : option string) (st : AppState) :
  messages (state (handleTranslationResult now date res lang audio st))
  = messages st ++ [newMessage now date res lang audio].
Proof.
  unfold handleTranslationResult. run_handler.
  destruct (channelOpen st); reflexivity.
Qed.

Lemma handleSendText_messages translateText (now date : Z) (st : AppState) :
  appends_fresh (messages st)
    (messages (state (handleSendText translateText now date st))).
Proof.
  unfold handleSendText.
  destruct (negb (truthy (trim (inputText st))) || isProcessing st
            || is_null (myRole st)); [left; reflexivity|].
  destruct (myRole st) as [role|]; [|left; reflexivity].
  unfold handleTranslationResult. run_handler.
  destruct (translateText (inputText st) role) as [res|reason]; cbn.
  - right. eexists. split; [|destruct (channelOpen st); reflexivity]. reflexivity.
  - left. reflexivity.
Qed.

Lemma handleStopRecording_messages translateAudioContent (now date : Z)
    (st : AppState) :
  appends_fresh (messages st)
    (messages (state (handleStopRecording translateAudioContent now date st))).
Proof.
  unfold handleStopRecording.
  destruct ((0 <? Z.of_nat (String.length (trim (inputText st))))
            || is_null (myRole st)); [left; reflexivity|].
  destruct (myRole st) as [role|]; [|left; reflexivity].
  unfold handleTranslationResult, stopRecording. run_handler.
  destruct (translateAudioContent None role) as [res|reason]; cbn.
  - right. eexists. split; [|destruct (channelOpen st); reflexivity]. reflexivity.
  - left. reflexivity.
Qed.

Lemma handleStartRecording_messages (st : AppState) :
  messages (state (handleStartRecording st)) = messages st.
Proof.
  unfold handleStartRecording.
  destruct (isProcessing st || _); reflexivity.
Qed.

Lemma mount_messages (rp cp sa : option string) (st : AppState) :
  messages (state (mount rp cp sa st)) = messages st.
Proof.
  unfold mount.
  destruct (is_some_string cp ACCESS_CODE), (Language_of_param rp),
    (is_some_string sa "true"); reflexivity.
Qed.

(** ** At most one reaction per (emoji, sender) pair *)

Lemma toggleReactions_NoDup (e : string) (role : Language) (rs : list Reaction) :
  NoDup rs -> NoDup (toggleReactions e role rs).
Proof.
  intros Hnd. destruct (find_first (reaction_matches e role) rs) as [k|] eqn:H.
  - rewrite (toggleReactions_present _ _ _ _ H).
    eapply sublist_NoDup; [exact Hnd | apply sublist_delete].
  - rewrite (toggleReactions_absent _ _ _ H).
    apply find_first_absent_iff in H.
    apply NoDup_app. repeat split; auto.
    + intros x Hx Hx'. apply list_elem_of_singleton in Hx'. subst x. contradiction.
    + apply NoDup_singleton.
Qed.

Lemma absent_count_zero (e : string) (role : Language) (rs : list Reaction) :
  mkReaction e role ∉ rs -> count_matches e role rs = 0%nat.
Proof.
  unfold count_matches. induction rs as [|x rs IH]; simpl; intros H; [reflexivity|].
  destruct (reaction_matches e role x) eqn:Hpx.
  - apply reaction_matches_true in Hpx. subst x. exfalso. apply H. left.
  - apply IH. intros Hin. apply H. right. exact Hin.
Qed.

Lemma NoDup_count_matches (e : string) (role : Language) (rs : list Reaction) :
  NoDup rs -> (count_matches e role rs <= 1)%nat.
Proof.
  induction 1 as [|x rs Hx Hnd IH]; [unfold count_matches; simpl; lia|].
  unfold count_matches in *. simpl.
  destruct (reaction_matches e role x) eqn:Hpx; [|exact IH].
  apply reaction_matches_true in Hpx. subst x.
  pose proof (absent_count_zero e role rs Hx) as Hz.
  unfold count_matches in Hz. simpl. lia.
Qed.

Lemma appends_fresh_unique (log log' : list ChatMessage) :
  appends_fresh log log' -> reactions_unique log -> reactions_unique log'.
Proof.
  unfold reactions_unique. intros [->|(m & Hm & ->)] H; [exact H|].
  apply Forall_app. split; [exact H|].
  constructor; [|constructor]. rewrite Hm. constructor.
Qed.

Lemma dispatch_unique (ev : LocalEvent) (st : AppState) :
  reactions_unique (messages st) ->
  reactions_unique (messages (state (dispatch ev st))).
Proof.
  intros H. destruct ev; simpl; try exact H.
  - eapply appends_fresh_unique; [apply handleSendText_messages | exact H].
  - rewrite handleStartRecording_messages. exact H.
  - eapply appends_fresh_unique; [apply handleStopRecording_messages | exact H].
  - destruct (myRole st) as [role|] eqn:Hrole.
    + rewrite (toggle_messages _ _ _ _ Hrole).
      unfold reactions_unique in *.
      change (map (toggled msgId emoji0 role) (messages st))
        with (toggled msgId emoji0 role <$> messages st).
      apply Forall_fmap. eapply Forall_impl; [exact H|].
      intros m Hm. unfold toggled. simpl.
      destruct (String.eqb (id m) msgId); simpl; auto using toggleReactions_NoDup.
    + unfold handleToggleReaction. rewrite Hrole. exact H.
Qed.

Lemma run_unique (evs : list LocalEvent) (st : AppState) :
  reactions_unique (messages st) -> reactions_unique (messages (run evs st)).
Proof.
  revert st. induction evs as [|ev evs IH]; simpl; intros st H; [exact H|].
  apply IH, dispatch_unique, H.
Qed.

(** C9. In every state a tab reaches from the empty log by local events
    (choosing a role, typing, sending text or voice, toggling reactions),
    every message of the log holds each (emoji, sender) pair at most once:
    a created message has no reactions, and a toggle removes a held pair or
    appends one that was not held. *)
Theorem C9_reactions_unique (roleParam codeParam storedAccess : option string)
    (evs : list LocalEvent) :
  Forall (fun m => NoDup (reactions m) /\
                   forall e role, (count_matches e role (reactions m) <= 1)%nat)
    (messages (session roleParam codeParam storedAccess evs)).
Proof.
  assert (H : reactions_unique
                (messages (session roleParam codeParam storedAccess evs))).
  { unfold session. apply run_unique. rewrite mount_messages. constructor. }
  eapply Forall_impl; [exact H|]. simpl.
  intros m Hm. split; [exact Hm|]. intros e role. apply NoDup_count_matches, Hm.
Qed.

(** ** The guards of a text send *)

(** C10. A text send whose trimmed input is empty, or that finds a send
    in flight, or that has no role, does nothing: it returns at once with
    the state as it was (log, input, flags, channel) and no effect at all,
    so the translation service is not called and nothing is posted. *)
Theorem C10_send_text_guard
    (translateText : string -> Language -> completion TranslationResponse)
    (now date : Z) (st : AppState) :
  trim (inputText st) = "" \/ isProcessing st = true \/ myRole st = None ->
  let o := handleSendText translateText now date st in
  result o = Returned tt /\ state o = st /\ trace o = [].
Proof.
  intros H. unfold handleSendText.
  replace (negb (truthy (trim (inputText st))) || isProcessing st
           || is_null (myRole st)) with true; [repeat split|].
  symmetry. destruct H as [H|[H|H]]; rewrite H; simpl.
  - reflexivity.
  - rewrite orb_true_r. reflexivity.
  - apply orb_true_r.
Qed.

Lemma C10_witness :
  let blank := setInputText "   " (tab english [m1]) in
  let busy := setIsProcessing true (setInputText "Hello" (tab english [m1])) in
  let norole := setMyRole None (setInputText "Hello" (tab english [m1])) in
  (state (handleSendText echo 5 5 blank) = blank /\
   trace (handleSendText echo 5 5 blank) = []) /\
  (state (handleSendText echo 5 5 busy) = busy /\
   trace (handleSendText echo 5 5 busy) = []) /\
  (state (handleSendText echo 5 5 norole) = norole /\
   trace (handleSendText echo 5 5 norole) = []).
Proof.
  intros blank busy norole.
  split; [|split].
  - apply (C10_send_text_guard echo 5 5 blank). left. reflexivity.
  - apply (C10_send_text_guard echo 5 5 busy). right. left. reflexivity.
  - apply (C10_send_text_guard echo 5 5 norole). right. right. reflexivity.
Defined.

(** A send that passes the guards does call the service. *)
Example send_text_passes :
  trace (handleSendText echo 5 6 (setInputText "Hello" (tab english [])))
  = [CallTranslateText "Hello" english;
     PostMessage (mkChatMessage "5" english "Hello" "[Hello]" 6 [] None)].
Proof. reflexivity. Qed.

(** ** The sends in closed form *)

(** Unfolds the handler monad without reducing anything else. *)
Ltac open_handler :=
  unfold try_catch_finally, handleTranslationResult, postMessage, stopRecording,
    mbind, handler_bind, bind, call, update, perform, ret;
  cbn [inputText isProcessing myRole channelOpen messages authStage
       activeReactionId recorder result state trace setIsProcessing
       setInputText setMessages setRecorder AppRecorder.stopRecording
       AppRecorder.audioBlob AppRecorder.isRecording].

Lemma handleSendText_cases
    (translateText : string -> Language -> completion TranslationResponse)
    (now date : Z) (st : AppState) :
  handleSendText translateText now date st
  = if negb (truthy (trim (inputText st))) || isProcessing st
       || is_null (myRole st)
    then mkOutcome (Returned tt) st []
    else
      match myRole st with
      | None => mkOutcome (Returned tt) st []
      | Some role =>
          match translateText (inputText st) role with
          | Returned res =>
              let created := newMessage now date res role None in
              mkOutcome (Returned tt)
                (mkAppState (authStage st) (myRole st) (messages st ++ [created])
                   "" false (activeReactionId st) (channelOpen st) (recorder st))
                (CallTranslateText (inputText st) role
                   :: if channelOpen st then [PostMessage created] else [])
          | Thrown _ =>
              mkOutcome (Returned tt)
                (mkAppState (authStage st) (myRole st) (messages st)
                   "" false (activeReactionId st) (channelOpen st) (recorder st))
                [CallTranslateText (inputText st) role;
                 ConsoleError "Text Interaction failed";
                 Alert "Something went wrong with the text translation. Please try again."]
          end
      end.
Proof.
  destruct st as [stage role log input busy picker open rec].
  unfold handleSendText. cbn [inputText isProcessing myRole].
  destruct (negb (truthy (trim input)) || busy || is_null role); [reflexivity|].
  destruct role as [role|]; [|reflexivity].
  open_handler.
  destruct (translateText input role); cbn [result state trace].
  - destruct open; reflexivity.
  - reflexivity.
Qed.

Lemma handleStopRecording_cases
    (translateAudioContent : option string -> Language -> completion TranslationResponse)
    (now date : Z) (st : AppState) :
  handleStopRecording translateAudioContent now date st
  = if (0 <? Z.of_nat (String.length (trim (inputText st))))
       || is_null (myRole st)
    then mkOutcome (Returned tt) st []
    else
      match myRole st with
      | None => mkOutcome (Returned tt) st []
      | Some role =>
          let stopped := AppRecorder.mk false (AppRecorder.audioBlob (recorder st)) in
          match translateAudioContent None role with
          | Returned res =>
              let created :=
                newMessage now date res role
                  (Some "data:audio/wav;base64,undefined") in
              mkOutcome (Returned tt)
                (mkAppState (authStage st) (myRole st) (messages st ++ [created])
                   (inputText st) false (activeReactionId st) (channelOpen st)
                   stopped)
                (CallTranslateAudio None role
                   :: if channelOpen st then [PostMessage created] else [])
          | Thrown _ =>
              mkOutcome (Returned tt)
                (mkAppState (authStage st) (myRole st) (messages st)
                   (inputText st) false (activeReactionId st) (channelOpen st)
                   stopped)
                [CallTranslateAudio None role;
                 ConsoleError "Voice Interaction failed";
                 Alert "Something went wrong with the voice translation. Please try again."]
          end
      end.
Proof.
  destruct st as [stage role log input busy picker open rec].
  unfold handleStopRecording. cbn [inputText isProcessing myRole].
  destruct ((0 <? Z.of_nat (String.length (trim input))) || is_null role);
    [reflexivity|].
  destruct role as [role|]; [|reflexivity].
  open_handler.
  destruct (translateAudioContent None role); cbn [result state trace].
  - destruct open; reflexivity.
  - reflexivity.
Qed.

(** ** What a toggle puts on the channel *)

Lemma toggle_trace_filter (open : bool) (msgId e : string) (role : Language)
    (log : list ChatMessage) :
  let stepped := map (toggleInMessage open msgId e role) log in
  concat (map snd stepped)
  = if open
    then map PostMessage (filter (fun m => id m = msgId) (map fst stepped))
    else [].
Proof.
  simpl. induction log as [|m log IH]; simpl.
  - destruct open; reflexivity.
  - rewrite IH. unfold toggleInMessage at 1 3.
    destruct (String.eqb (id m) msgId) eqn:Heq; simpl.
    + apply String.eqb_eq in Heq.
      destruct open; [|reflexivity].
      rewrite filter_cons_True by exact Heq. reflexivity.
    + apply String.eqb_neq in Heq.
      destruct open; [|reflexivity].
      rewrite filter_cons_False by exact Heq. reflexivity.
Qed.

Lemma toggle_posts_updated_aux (st : AppState) (msgId e : string) :
  channelOpen st = false -> trace (handleToggleReaction msgId e st) = [].
Proof.
  intros Hc. unfold handleToggleReaction.
  destruct (myRole st) as [role|]; simpl; [|reflexivity].
  rewrite toggle_trace_filter, Hc. reflexivity.
Qed.

Lemma toggle_trace_eq (st : AppState) (msgId e : string) :
  let o := handleToggleReaction msgId e st in
  trace o
  = if channelOpen st && negb (is_null (myRole st))
    then map PostMessage (filter (fun m => id m = msgId) (messages (state o)))
    else [].
Proof.
  simpl. unfold handleToggleReaction.
  destruct (myRole st) as [role|]; simpl.
  - rewrite toggle_trace_filter. rewrite andb_true_r. reflexivity.
  - rewrite andb_false_r. reflexivity.
Qed.

Lemma nonempty_truthy (s : string) : s <> "" -> truthy s = true.
Proof.
  intros H. unfold truthy. apply negb_true_iff, String.eqb_neq, H.
Qed.

(** ** Local first *)

Lemma posted_in_mono (log log' : list ChatMessage) (e : effect) :
  (forall m, m ∈ log -> m ∈ log') -> posted_in log e -> posted_in log' e.
Proof. destruct e; simpl; auto. Qed.

Lemma toggle_posts_in_log (open : bool) (msgId e : string) (role : Language)
    (log : list ChatMessage) :
  let stepped := map (toggleInMessage open msgId e role) log in
  Forall (posted_in (map fst stepped)) (concat (map snd stepped)).
Proof.
  simpl. induction log as [|m log IH]; simpl; [constructor|].
  apply Forall_app. split.
  - unfold toggleInMessage.
    destruct (negb (String.eqb (id m) msgId)); simpl; [constructor|].
    destruct open; constructor; [|constructor]. simpl. left.
  - eapply Forall_impl; [exact IH|]. intros x. apply posted_in_mono.
    intros y Hy. right. exact Hy.
Qed.

Lemma toggle_channel_independent (b : bool) (msgId e : string) (st : AppState) :
  messages (state (handleToggleReaction msgId e (setChannel b st)))
  = messages (state (handleToggleReaction msgId e st)).
Proof.
  destruct (myRole st) as [role|] eqn:Hrole.
  - rewrite (toggle_messages (setChannel b st) _ _ role) by exact Hrole.
    rewrite (toggle_messages st _ _ role) by exact Hrole. reflexivity.
  - unfold handleToggleReaction. simpl. rewrite Hrole. reflexivity.
Qed.

(** C7. Every operation that makes a record applies it to the tab's own
    log, whether or not a channel is open, and what it posts is that
    record. A text or voice send that gets its answer appends the created
    record to the log and posts it only if a channel is open; the creation
    writes the log first and posts from the state that already holds the
    record. A toggle puts the updated record at every position that
    carries the id and posts exactly those updated records. Whatever a
    local handler posts is in the log it leaves behind, and that log is the
    same with and without a channel: the handlers take nothing from the
    channel. *)
Theorem C7_local_first (ev : LocalEvent) (st : AppState) :
  let o := dispatch ev st in
  Forall (posted_in (messages (state o))) (trace o) /\
  (forall b, messages (state (dispatch ev (setChannel b st)))
             = messages (state o)) /\
  (forall b, Forall (posted_in (messages (state o)))
               (trace (dispatch ev (setChannel b st)))) /\
  (forall now date res lang audio,
     let created := newMessage now date res lang audio in
     let o' := handleTranslationResult now date res lang audio st in
     messages (state o') = messages st ++ [created] /\
     trace o' = if channelOpen st then [PostMessage created] else []) /\
  (forall now date res lang audio,
     let created := newMessage now date res lang audio in
     let applied := setMessages (fun prev => prev ++ [created]) st in
     let posting := postMessage created applied in
     created ∈ messages applied /\
     handleTranslationResult now date res lang audio st
     = mkOutcome (result posting) (state posting) (trace posting)) /\
  (forall translateText now date role res,
     myRole st = Some role ->
     isProcessing st = false ->
     trim (inputText st) <> "" ->
     translateText (inputText st) role = Returned res ->
     let created := newMessage now date res role None in
     let o' := handleSendText translateText now date st in
     messages (state o') = messages st ++ [created] /\
     trace o' = CallTranslateText (inputText st) role
                  :: if channelOpen st then [PostMessage created] else []) /\
  (forall translateAudioContent now date role res,
     myRole st = Some role ->
     trim (inputText st) = "" ->
     translateAudioContent None role = Returned res ->
     let created :=
       newMessage now date res role (Some "data:audio/wav;base64,undefined") in
     let o' := handleStopRecording translateAudioContent now date st in
     messages (state o') = messages st ++ [created] /\
     trace o' = CallTranslateAudio None role
                  :: if channelOpen st then [PostMessage created] else []) /\
  (forall msgId e role,
     myRole st = Some role ->
     let o' := handleToggleReaction msgId e st in
     length (messages (state o')) = length (messages st) /\
     (forall i msg,
        messages st !! i = Some msg -> id msg = msgId ->
        messages (state o') !! i
        = Some (withReactions msg (toggleReactions e role (reactions msg)))) /\
     trace o'
     = if channelOpen st
       then map PostMessage
              (filter (fun m => id m = msgId) (messages (state o')))
       else []).
Proof.
  assert (Hposts : forall st',
            Forall (posted_in (messages (state (dispatch ev st'))))
              (trace (dispatch ev st'))).
  { intros st'. destruct ev; simpl; try (repeat constructor).
    - rewrite handleSendText_cases.
      destruct (_ || _ || _); [constructor|].
      destruct (myRole st') as [role|]; [|constructor].
      destruct (translateText (inputText st') role);
        cbn [state trace messages]; [|repeat constructor].
      destruct (channelOpen st'); repeat constructor.
      simpl. apply elem_of_app. right. left.
    - unfold handleStartRecording. destruct (_ || _); constructor.
    - rewrite handleStopRecording_cases.
      destruct (_ || _); [constructor|].
      destruct (myRole st') as [role|]; [|constructor].
      destruct (translateAudioContent None role);
        cbn [state trace messages]; [|repeat constructor].
      destruct (channelOpen st'); repeat constructor.
      simpl. apply elem_of_app. right. left.
    - unfold handleToggleReaction.
      destruct (myRole st') as [role|]; [|constructor].
      simpl. apply toggle_posts_in_log. }
  assert (Hindep : forall b,
            messages (state (dispatch ev (setChannel b st)))
            = messages (state (dispatch ev st))).
  { intros b. destruct ev; simpl; try reflexivity.
    - rewrite !handleSendText_cases.
      cbn [setChannel inputText isProcessing myRole messages].
      destruct (_ || _ || _); [reflexivity|].
      destruct (myRole st) as [role|]; [|reflexivity].
      destruct (translateText (inputText st) role); reflexivity.
    - unfold handleStartRecording. simpl. destruct (_ || _); reflexivity.
    - rewrite !handleStopRecording_cases.
      cbn [setChannel inputText isProcessing myRole messages].
      destruct (_ || _); [reflexivity|].
      destruct (myRole st) as [role|]; [|reflexivity].
      destruct (translateAudioContent None role); reflexivity.
    - apply toggle_channel_independent. }
  cbv zeta. split; [apply Hposts|]. split; [exact Hindep|]. split.
  { intros b. rewrite <- (Hindep b). apply Hposts. }
  split.
  { intros now date res lang audio.
    unfold handleTranslationResult. run_handler.
    destruct (channelOpen st); split; reflexivity. }
  split.
  { intros now date res lang audio. split.
    - simpl. apply elem_of_app. right. left.
    - unfold handleTranslationResult. run_handler.
      destruct (channelOpen st); reflexivity. }
  split.
  { intros translateText now date role res Hrole Hproc Htext Hanswer.
    rewrite handleSendText_cases.
    rewrite (nonempty_truthy _ Htext), Hproc, Hrole, Hanswer.
    split; reflexivity. }
  split.
  { intros translateAudioContent now date role res Hrole Htext Hanswer.
    rewrite handleStopRecording_cases.
    rewrite Htext, Hrole, Hanswer. split; reflexivity. }
  intros msgId e role Hrole. split; [|split].
  - rewrite (toggle_messages _ _ _ _ Hrole). apply length_map.
  - intros i msg Hi Hid.
    rewrite (toggle_lookup st msgId e role i msg Hrole Hi).
    rewrite (toggled_target _ _ _ _ Hid). reflexivity.
  - pose proof (toggle_trace_eq st msgId e) as Ht. cbv zeta in Ht.
    rewrite Ht, Hrole. simpl. rewrite andb_true_r. reflexivity.
Qed.

(** A tab opened from an invite link has no channel; a send there still
    appends to the log and posts nothing. *)
Example invite_link_send :
  let st := session (Some "english") (Some "BESOS") None [EvInput "Hello"] in
  channelOpen st = false /\ myRole st = Some english /\
  dispatch (EvSendText echo 5 6) st
  = mkOutcome (Returned tt)
      (setInputText ""
         (setMessages (fun _ => [mkChatMessage "5" english "Hello" "[Hello]" 6 [] None]) st))
      [CallTranslateText "Hello" english].
Proof. repeat split. Qed.

(** ** Message ids *)

Lemma to_int_nonnil (z : Z) :
  Z.to_int z <> Decimal.Pos Decimal.Nil /\ Z.to_int z <> Decimal.Neg Decimal.Nil.
Proof.
  destruct z; simpl; split; try discriminate; intros H; injection H as H;
    exact (DecimalPos.Unsigned.to_uint_nonnil _ H).
Qed.

(** Distinct clock readings print differently. *)
Lemma toString_inj (a b : Z) : toString a = toString b -> a = b.
Proof.
  unfold toString. intros H. apply DecimalZ.to_int_inj.
  destruct (to_int_nonnil a) as [Ha1 Ha2]. destruct (to_int_nonnil b) as [Hb1 Hb2].
  pose proof (NilZero.isi _ Ha1 Ha2) as Ia.
  pose proof (NilZero.isi _ Hb1 Hb2) as Ib.
  rewrite H in Ia. congruence.
Qed.

(** The id of a created message is the clock reading and nothing else. *)
Lemma newMessage_id_eq (now now' date date' : Z) (res res' : TranslationResponse)
    (lang lang' : Language) (audio audio' : option string) :
  id (newMessage now date res lang audio) = id (newMessage now' date' res' lang' audio')
  <-> now = now'.
Proof.
  simpl. split; [apply toString_inj | intros ->; reflexivity].
Qed.

(** C5 does not hold of the code: the id is the millisecond clock
    reading. Two sends in one tab that read the same millisecond give two
    different messages one id; and when two tabs each create a message in
    the same millisecond, the delivery of one to the other tab overwrites
    that tab's own message. *)
Theorem C5_same_millisecond_same_id :
  let t := 1700000000000 in
  let granted := Some "true" in
  let one := session None None granted
               [EvSelectRole english;
                EvInput "Hello"; EvSendText echo t t;
                EvInput "Bye"; EvSendText echo t t] in
  let tabA := session None None granted
               [EvSelectRole english; EvInput "Hello"; EvSendText echo t t] in
  let tabB := session None None granted
               [EvSelectRole spanish; EvInput "Hola"; EvSendText echo t t] in
  let a := mkChatMessage "1700000000000" english "Hello" "[Hello]" t [] None in
  let a' := mkChatMessage "1700000000000" english "Bye" "[Bye]" t [] None in
  let b := mkChatMessage "1700000000000" spanish "Hola" "[Hola]" t [] None in
  messages one = [a; a'] /\ a <> a' /\ id a = id a' /\
  messages tabA = [a] /\ messages tabB = [b] /\ a <> b /\ id a = id b /\
  trace (dispatch (EvSendText echo t t)
           (run [EvSelectRole spanish; EvInput "Hola"]
              (state (mount None None granted initialState))))
  = [CallTranslateText "Hola" spanish; PostMessage b] /\
  messages (state (onmessage b tabA)) = [b].
Proof.
  repeat split; discriminate.
Qed.

(** ** Stopping a recorder that is idle *)

(** The hook built on [MediaRecorder] rejects a stop that no successful
    start preceded, and stays as it was. *)
Lemma Hook_stop_without_recorder (throws : bool) (r : Hook.t) :
  Hook.mediaRecorderRef r = None ->
  Hook.stopRecording throws r
  = (Hook.Settled (Thrown "No recorder found"), r).
Proof. unfold Hook.stopRecording. intros ->. reflexivity. Qed.

(** A start that was refused the microphone leaves no recorder behind. *)
Lemma Hook_failed_start (timerId : Z) (r : Hook.t) :
  state (Hook.startRecording false timerId r) = r.
Proof. reflexivity. Qed.

(** C6 does not hold of the recorder the application runs: stopping the
    idle recorder of the [App] file returns normally with [undefined] and
    raises nothing (the state does stay as it was), and the voice send goes
    on to build a message from it; the hook built on [MediaRecorder], from
    the idle state, rejects with "No recorder found". *)
Theorem C6_stop_while_idle :
  let idle := AppRecorder.init in
  let st := tab english [] in
  let res := mkTranslationResponse "" "" in
  AppRecorder.isRecording idle = false /\
  AppRecorder.stopRecording idle = mkOutcome (Returned None) idle [] /\
  (forall reason, result (AppRecorder.stopRecording idle) <> Thrown reason) /\
  dispatch (EvStopRecording (fun _ _ => Returned res) 7 8) st
  = mkOutcome (Returned tt)
      (tab english
         [mkChatMessage "7" english "" "" 8 []
            (Some "data:audio/wav;base64,undefined")])
      [CallTranslateAudio None english;
       PostMessage (mkChatMessage "7" english "" "" 8 []
                      (Some "data:audio/wav;base64,undefined"))] /\
  (forall throws,
     Hook.stopRecording throws Hook.init
     = (Hook.Settled (Thrown "No recorder found"), Hook.init)).
Proof.
  repeat split. intros reason. discriminate.
Qed.

(** * Further properties of the code *)

(** ** Merging: redelivery, unique ids, order of delivery *)

Lemma merge_cons (m x : ChatMessage) (log : list ChatMessage) :
  merge m (x :: log) = if same_id m x then m :: log else x :: merge m log.
Proof.
  destruct (same_id m x) eqn:Hx.
  - apply (merge_found m (x :: log) 0). simpl. rewrite Hx. reflexivity.
  - destruct (find_first (same_id m) log) as [i|] eqn:Hf.
    + rewrite (merge_found m (x :: log) (S i)) by (simpl; rewrite Hx, Hf; reflexivity).
      rewrite (merge_found m log i Hf). reflexivity.
    + rewrite (merge_missing m (x :: log)) by (simpl; rewrite Hx, Hf; reflexivity).
      rewrite (merge_missing m log Hf). reflexivity.
Qed.

Lemma merge_ids (m : ChatMessage) (log : list ChatMessage) (y : string) :
  y ∈ map id (merge m log) -> y ∈ map id log \/ y = id m.
Proof.
  induction log as [|x log IH]; simpl.
  - intros H. apply list_elem_of_singleton in H. right. exact H.
  - rewrite merge_cons. destruct (same_id m x) eqn:Hx; simpl; intros H.
    + apply elem_of_cons in H as [->|H]; [right; reflexivity|].
      left. right. exact H.
    + apply elem_of_cons in H as [->|H]; [left; left|].
      destruct (IH H) as [H'|H']; [left; right; exact H' | right; exact H'].
Qed.

(** X1. Delivering the same record twice is the same as delivering it
    once. *)
Theorem merge_idempotent (st : AppState) (m : ChatMessage) :
  messages (state (onmessage m (state (onmessage m st))))
  = messages (state (onmessage m st)).
Proof. simpl. apply merge_merge_same_id. reflexivity. Qed.

Lemma merge_unique_ids (m : ChatMessage) (log : list ChatMessage) :
  NoDup (map id log) -> NoDup (map id (merge m log)).
Proof.
  induction log as [|x log IH]; simpl; intros H.
  - apply NoDup_singleton.
  - rewrite merge_cons. apply NoDup_cons in H as [Hx Hnd].
    destruct (same_id m x) eqn:Hmx; simpl.
    + apply same_id_true in Hmx. rewrite <- Hmx.
      apply NoDup_cons. split; assumption.
    + apply NoDup_cons. split; [|apply IH, Hnd].
      intros Hin. apply merge_ids in Hin as [Hin| Heq]; [contradiction|].
      apply same_id_false in Hmx. contradiction.
Qed.

(** X2. A log whose ids are pairwise distinct keeps that through every
    delivery. *)
Theorem onmessage_keeps_ids_unique (st : AppState) (m : ChatMessage) :
  NoDup (map id (messages st)) ->
  NoDup (map id (messages (state (onmessage m st)))).
Proof. simpl. apply merge_unique_ids. Qed.

Lemma onmessage_keeps_ids_unique_witness :
  NoDup (map id (messages (state (onmessage
           (withReactions m1 [mkReaction fire english])
           (tab english [m1; mkChatMessage "m2" english "Hi" "Hola" 2 [] None]))))).
Proof.
  apply (onmessage_keeps_ids_unique
           (tab english [m1; mkChatMessage "m2" english "Hi" "Hola" 2 [] None])).
  simpl. apply NoDup_cons. split.
  - intros H. apply list_elem_of_singleton in H. discriminate.
  - apply NoDup_singleton.
Defined.

Lemma filter_all {A} (P : A -> Prop) `{!forall x, Decision (P x)} (l : list A) :
  (forall x, x ∈ l -> P x) -> filter P l = l.
Proof.
  induction l as [|x l IH]; intros Hall; [reflexivity|].
  rewrite filter_cons_True by (apply Hall; left).
  rewrite IH; [reflexivity|]. intros y Hy. apply Hall. right. exact Hy.
Qed.

(** With unique ids, a delivery puts the record in and takes out the one
    entry with its id, if any. *)
Lemma merge_perm (m : ChatMessage) (log : list ChatMessage) :
  NoDup (map id log) ->
  merge m log ≡ₚ m :: filter (fun x => id x <> id m) log.
Proof.
  induction log as [|x log IH]; simpl; intros H; [reflexivity|].
  apply NoDup_cons in H as [Hx Hnd].
  rewrite merge_cons. destruct (same_id m x) eqn:Hmx.
  - apply same_id_true in Hmx.
    rewrite filter_cons_False by (intros Hne; apply Hne, Hmx).
    rewrite filter_all; [reflexivity|].
    intros y Hy Heq. apply Hx. rewrite Hmx, <- Heq.
    apply list_elem_of_In, in_map, list_elem_of_In, Hy.
  - apply same_id_false in Hmx.
    rewrite filter_cons_True by exact Hmx.
    rewrite (IH Hnd). apply Permutation_swap.
Qed.

Lemma receive_unique_ids (ms : list ChatMessage) (st : AppState) :
  NoDup (map id (messages st)) -> NoDup (map id (messages (receive ms st))).
Proof.
  revert st. induction ms as [|m ms IH]; simpl; intros st H; [exact H|].
  apply IH. simpl. apply merge_unique_ids, H.
Qed.

(** What a batch with pairwise distinct ids leaves: the batch, and the
    entries of the log whose id the batch does not carry. *)
Lemma receive_perm (ms : list ChatMessage) (st : AppState) :
  NoDup (map id (messages st)) -> NoDup (map id ms) ->
  messages (receive ms st)
  ≡ₚ ms ++ filter (fun x => id x ∉ map id ms) (messages st).
Proof.
  revert st. induction ms as [|m ms IH]; simpl; intros st Hlog Hms.
  - rewrite filter_all; [reflexivity|]. intros x _ Hx. inversion Hx.
  - apply NoDup_cons in Hms as [Hm Hnd].
    rewrite IH; [|simpl; apply merge_unique_ids, Hlog | exact Hnd].
    simpl. rewrite (merge_perm m (messages st) Hlog).
    rewrite filter_cons_True by exact Hm.
    rewrite list_filter_filter.
    rewrite <- Permutation_middle. apply Permutation_skip.
    apply Permutation_app_head.
    erewrite list_filter_iff; [reflexivity|].
    intros x. simpl. rewrite not_elem_of_cons. tauto.
Qed.

(** X3. Convergence. On a log with pairwise distinct ids, the same records
    with pairwise distinct ids, delivered in any two orders, leave the same
    log up to the order of its entries. *)
Theorem receive_order_irrelevant (st : AppState) (ms ms' : list ChatMessage) :
  NoDup (map id (messages st)) ->
  NoDup (map id ms) ->
  ms ≡ₚ ms' ->
  messages (receive ms st) ≡ₚ messages (receive ms' st).
Proof.
  intros Hlog Hms Hperm.
  assert (Hms' : NoDup (map id ms')).
  { eapply NoDup_Permutation_proper; [|exact Hms].
    symmetry. apply Permutation_map, Hperm. }
  rewrite (receive_perm ms st Hlog Hms), (receive_perm ms' st Hlog Hms').
  apply Permutation_app; [exact Hperm|].
  erewrite list_filter_iff; [reflexivity|].
  intros x. simpl. rewrite (Permutation_map id Hperm). reflexivity.
Qed.

Lemma receive_order_irrelevant_witness :
  let a := mkChatMessage "m2" english "Hi" "Hola" 2 [] None in
  let b := mkChatMessage "m3" spanish "Si" "Yes" 3 [] None in
  messages (receive [a; b] (tab english [m1]))
  ≡ₚ messages (receive [b; a] (tab english [m1])).
Proof.
  intros a b.
  apply (receive_order_irrelevant (tab english [m1]) [a; b] [b; a]).
  - apply (bool_decide_unpack _). vm_compute. exact I.
  - apply (bool_decide_unpack _). vm_compute. exact I.
  - apply Permutation_swap.
Defined.

Lemma receive_fresh (ms : list ChatMessage) (st : AppState) :
  NoDup (map id (messages st ++ ms)) ->
  messages (receive ms st) = messages st ++ ms.
Proof.
  revert st. induction ms as [|m ms IH]; simpl; intros st H.
  - symmetry. apply app_nil_r.
  - assert (Hfresh : find_first (same_id m) (messages st) = None).
    { apply find_first_same_id_None. intros x Hx Heq.
      rewrite map_app in H. apply NoDup_app in H as (_ & Hdisj & _).
      apply (Hdisj (id x)).
      - apply list_elem_of_In, in_map, list_elem_of_In, Hx.
      - rewrite Heq. simpl. left. }
    rewrite IH; simpl; rewrite (merge_missing _ _ Hfresh).
    + rewrite <- app_assoc. reflexivity.
    + rewrite <- app_assoc. exact H.
Qed.

(** X4. Two tabs whose logs share no id and repeat none exchange all their
    records: each ends with its own records followed by the other's, so
    both hold the same records, in different orders. *)
Theorem exchange_converges (stA stB : AppState) :
  NoDup (map id (messages stA ++ messages stB)) ->
  let endA := messages (receive (messages stB) stA) in
  let endB := messages (receive (messages stA) stB) in
  endA = messages stA ++ messages stB /\
  endB = messages stB ++ messages stA /\
  endA ≡ₚ endB.
Proof.
  intros H. simpl.
  assert (H' : NoDup (map id (messages stB ++ messages stA))).
  { eapply NoDup_Permutation_proper; [|exact H].
    apply Permutation_map, Permutation_app_comm. }
  rewrite (receive_fresh _ _ H), (receive_fresh _ _ H').
  repeat split. apply Permutation_app_comm.
Qed.

Lemma exchange_converges_witness :
  let a := mkChatMessage "m2" english "Hi" "Hola" 2 [] None in
  messages (receive [a] (tab spanish [m1])) = [m1; a] /\
  messages (receive [m1] (tab english [a])) = [a; m1].
Proof.
  intros a.
  destruct (exchange_converges (tab spanish [m1]) (tab english [a]))
    as (HA & HB & _).
  - apply (bool_decide_unpack _). vm_compute. exact I.
  - split; [exact HA | exact HB].
Defined.

(** ** The toggle as a change of the set of reactions *)

(** X5. On reactions that hold the pair at most once, a toggle is the
    symmetric difference with that pair: every other reaction stays, and
    the pair is in afterwards exactly when it was not in before. *)
Theorem toggle_membership (e : string) (role : Language) (rs : list Reaction)
    (y : Reaction) :
  (count_matches e role rs <= 1)%nat ->
  y ∈ toggleReactions e role rs <->
  (y <> mkReaction e role /\ y ∈ rs) \/
  (y = mkReaction e role /\ mkReaction e role ∉ rs).
Proof.
  intros Hc.
  destruct (find_first (reaction_matches e role) rs) as [k|] eqn:Hf.
  - rewrite (toggleReactions_present _ _ _ _ Hf).
    pose proof (find_first_delete_only _ _ _ _ Hf Hc) as Hgone.
    apply find_first_absent_iff in Hgone.
    destruct (find_first_Some _ _ _ Hf) as (x & Hx & Hpx & _).
    apply reaction_matches_true in Hpx. subst x.
    pose proof (delete_Permutation rs k _ Hx) as Hperm.
    split.
    + intros Hy. left. split.
      * intros ->. contradiction.
      * rewrite Hperm. right. exact Hy.
    + intros [[Hne Hy]|[-> Habs]].
      * rewrite Hperm in Hy. apply elem_of_cons in Hy as [->|Hy]; [contradiction|exact Hy].
      * exfalso. apply Habs. eapply list_elem_of_lookup_2, Hx.
  - rewrite (toggleReactions_absent _ _ _ Hf).
    apply find_first_absent_iff in Hf.
    rewrite elem_of_app, list_elem_of_singleton. split.
    + intros [Hy| ->]; [left|right]; split; auto.
      intros ->. contradiction.
    + intros [[_ Hy]|[-> _]]; auto.
Qed.

Lemma toggle_membership_witness :
  let rs := [mkReaction heart english; mkReaction fire spanish] in
  mkReaction fire spanish ∈ toggleReactions heart english rs /\
  (mkReaction heart english ∉ toggleReactions heart english rs).
Proof.
  intros rs.
  assert (Hc : (count_matches heart english rs <= 1)%nat) by (vm_compute; lia).
  split.
  - apply (toggle_membership heart english rs _ Hc). left. split.
    + discriminate.
    + right. left.
  - intros Hin.
    apply (toggle_membership heart english rs _ Hc) in Hin as [[Hne _]|[_ Habs]].
    + apply Hne. reflexivity.
    + apply Habs. left.
Defined.

Lemma toggleReactions_length (e : string) (role : Language) (rs : list Reaction) :
  (mkReaction e role ∈ rs /\
   S (length (toggleReactions e role rs)) = length rs) \/
  ((mkReaction e role ∉ rs) /\
   length (toggleReactions e role rs) = S (length rs)).
Proof.
  destruct (find_first (reaction_matches e role) rs) as [k|] eqn:Hf.
  - left. rewrite (toggleReactions_present _ _ _ _ Hf).
    destruct (find_first_Some _ _ _ Hf) as (x & Hx & Hpx & _).
    apply reaction_matches_true in Hpx. subst x. split.
    + eapply list_elem_of_lookup_2, Hx.
    + rewrite length_delete by (rewrite Hx; eauto).
      apply lookup_lt_Some in Hx. lia.
  - right. rewrite (toggleReactions_absent _ _ _ Hf). split.
    + apply find_first_absent_iff, Hf.
    + rewrite length_app. simpl. lia.
Qed.

(** X6. A toggle changes the number of reactions of a message by exactly
    one: down when the pair is held, up when it is not. *)
Theorem toggle_length (e : string) (role : Language) (rs : list Reaction) :
  (mkReaction e role ∈ rs /\
   S (length (toggleReactions e role rs)) = length rs) \/
  ((mkReaction e role ∉ rs) /\
   length (toggleReactions e role rs) = S (length rs)).
Proof. apply toggleReactions_length. Qed.

(** ** What a toggle publishes *)

(** X7. With a role and an open channel, a toggle posts exactly the
    records of the new log that carry the toggled id, in log order, each as
    updated; without a role or without a channel it posts nothing. *)
Theorem toggle_posts_updated (st : AppState) (msgId e : string) :
  let o := handleToggleReaction msgId e st in
  trace o
  = if channelOpen st && negb (is_null (myRole st))
    then map PostMessage (filter (fun m => id m = msgId) (messages (state o)))
    else [].
Proof. apply toggle_trace_eq. Qed.

(** ** The log under local events *)

Lemma same_core_refl (m : ChatMessage) : same_core m m.
Proof. repeat split. Qed.

Lemma same_core_trans (a b c : ChatMessage) :
  same_core a b -> same_core b c -> same_core a c.
Proof.
  unfold same_core. intros (?&?&?&?&?&?) (?&?&?&?&?&?).
  repeat split; congruence.
Qed.

Lemma extends_log_refl (log : list ChatMessage) : extends_log log log.
Proof. intros i msg H. exists msg. split; [exact H | apply same_core_refl]. Qed.

Lemma extends_log_trans (a b c : list ChatMessage) :
  extends_log a b -> extends_log b c -> extends_log a c.
Proof.
  intros Hab Hbc i msg H.
  destruct (Hab i msg H) as (m' & H' & Hc').
  destruct (Hbc i m' H') as (m'' & H'' & Hc'').
  exists m''. split; [exact H'' | eapply same_core_trans; eauto].
Qed.

Lemma appends_fresh_extends (log log' : list ChatMessage) :
  appends_fresh log log' -> extends_log log log'.
Proof.
  intros [->|(m & _ & ->)]; [apply extends_log_refl|].
  intros i msg H. exists msg. split; [|apply same_core_refl].
  apply lookup_app_l_Some, H.
Qed.

Lemma toggled_same_core (msgId e : string) (role : Language) (m : ChatMessage) :
  same_core m (toggled msgId e role m).
Proof.
  unfold toggled. destruct (String.eqb (id m) msgId); repeat split.
Qed.

Lemma dispatch_extends (ev : LocalEvent) (st : AppState) :
  extends_log (messages st) (messages (state (dispatch ev st))).
Proof.
  destruct ev; simpl; try apply extends_log_refl.
  - apply appends_fresh_extends, handleSendText_messages.
  - rewrite handleStartRecording_messages. apply extends_log_refl.
  - apply appends_fresh_extends, handleStopRecording_messages.
  - destruct (myRole st) as [role|] eqn:Hrole.
    + intros i msg H. exists (toggled msgId emoji0 role msg).
      split; [apply toggle_lookup; assumption | apply toggled_same_core].
    + unfold handleToggleReaction. rewrite Hrole. apply extends_log_refl.
Qed.

(** X8. Under local events the log only grows at its end and a record,
    once in the log, keeps its position, id, sender, texts, timestamp and
    audio reference for good: only its reactions may differ later. *)
Theorem local_events_append_only (evs : list LocalEvent) (st : AppState) :
  extends_log (messages st) (messages (run evs st)) /\
  (length (messages st) <= length (messages (run evs st)))%nat.
Proof.
  assert (H : extends_log (messages st) (messages (run evs st))).
  { revert st. induction evs as [|ev evs IH]; simpl; intros st.
    - apply extends_log_refl.
    - eapply extends_log_trans; [apply dispatch_extends | apply IH]. }
  split; [exact H|].
  destruct (messages st !! (length (messages st) - 1)%nat) as [m|] eqn:Hlast.
  - pose proof (lookup_lt_Some _ _ _ Hlast) as Hlt.
    destruct (H _ _ Hlast) as (m' & Hm' & _).
    apply lookup_lt_Some in Hm'. lia.
  - apply lookup_ge_None in Hlast. lia.
Qed.

(** ** Roles, stages and the channel over a session *)

(** Every event but choosing a role and logging out leaves the stage and
    the role alone; no event touches the channel reference. *)
Lemma dispatch_auth (ev : LocalEvent) (st : AppState) :
  let st' := state (dispatch ev st) in
  channelOpen st' = channelOpen st /\
  ((authStage st' = authStage st /\ myRole st' = myRole st) \/
   (authStage st' = CHAT /\ exists role, myRole st' = Some role) \/
   (authStage st' = ROLE_SELECT /\ myRole st' = None)).
Proof.
  assert (Hsame : forall st' : AppState,
            channelOpen st' = channelOpen st -> authStage st' = authStage st ->
            myRole st' = myRole st ->
            channelOpen st' = channelOpen st /\
            ((authStage st' = authStage st /\ myRole st' = myRole st) \/
             (authStage st' = CHAT /\ exists role, myRole st' = Some role) \/
             (authStage st' = ROLE_SELECT /\ myRole st' = None))) by auto.
  destruct ev; simpl.
  - split; [reflexivity|]. right. left. eauto.
  - split; [reflexivity|]. right. right. auto.
  - apply Hsame; first [reflexivity | cbn [state channelOpen authStage myRole]; congruence | simpl; congruence].
  - rewrite handleSendText_cases.
    destruct (_ || _ || _); [apply Hsame; first [reflexivity | cbn [state channelOpen authStage myRole]; congruence | simpl; congruence]|].
    destruct (myRole st) as [role|] eqn:Hrole; [|apply Hsame; first [reflexivity | cbn [state channelOpen authStage myRole]; congruence | simpl; congruence]].
    destruct (translateText (inputText st) role); apply Hsame; first [reflexivity | cbn [state channelOpen authStage myRole]; congruence | simpl; congruence].
  - unfold handleStartRecording. destruct (_ || _); apply Hsame; first [reflexivity | cbn [state channelOpen authStage myRole]; congruence | simpl; congruence].
  - rewrite handleStopRecording_cases.
    destruct (_ || _); [apply Hsame; first [reflexivity | cbn [state channelOpen authStage myRole]; congruence | simpl; congruence]|].
    destruct (myRole st) as [role|] eqn:Hrole; [|apply Hsame; first [reflexivity | cbn [state channelOpen authStage myRole]; congruence | simpl; congruence]].
    destruct (translateAudioContent None role); apply Hsame; first [reflexivity | cbn [state channelOpen authStage myRole]; congruence | simpl; congruence].
  - unfold handleToggleReaction.
    destruct (myRole st) as [role|] eqn:Hrole; apply Hsame; first [reflexivity | cbn [state channelOpen authStage myRole]; congruence | simpl; congruence].
Qed.

Lemma run_stage_matches_role (evs : list LocalEvent) (st : AppState) :
  stage_matches_role st -> stage_matches_role (run evs st).
Proof.
  revert st. induction evs as [|ev evs IH]; simpl; intros st H; [exact H|].
  apply IH. unfold stage_matches_role in *.
  destruct (dispatch_auth ev st) as (_ & [[Hs Hr]|[[Hs (role & Hr)]|[Hs Hr]]]).
  - rewrite Hs, Hr. exact H.
  - rewrite Hs, Hr. split; [discriminate | reflexivity].
  - rewrite Hs, Hr. split; [discriminate | intros Hne; contradiction].
Qed.

Lemma run_channel (evs : list LocalEvent) (st : AppState) :
  channelOpen (run evs st) = channelOpen st.
Proof.
  revert st. induction evs as [|ev evs IH]; simpl; intros st; [reflexivity|].
  rewrite IH. apply dispatch_auth.
Qed.

(** X9. Throughout a session the chat view is shown exactly when a role
    is bound: the stage is [CHAT] if and only if [myRole] is not null. *)
Theorem chat_stage_iff_role (roleParam codeParam storedAccess : option string)
    (evs : list LocalEvent) :
  let st := session roleParam codeParam storedAccess evs in
  authStage st = CHAT <-> myRole st <> None.
Proof.
  simpl. unfold session. apply run_stage_matches_role.
  unfold stage_matches_role, mount.
  destruct (is_some_string codeParam ACCESS_CODE), (Language_of_param roleParam),
    (is_some_string storedAccess "true"); simpl;
    split; (discriminate || reflexivity || (intros H; contradiction) || auto).
Qed.

Lemma closed_channel_no_post (ev : LocalEvent) (st : AppState) :
  channelOpen st = false ->
  Forall (fun e => is_post e = false) (trace (dispatch ev st)).
Proof.
  intros Hc. destruct ev; cbn [dispatch];
    try (cbv; repeat constructor; fail).
  - rewrite handleSendText_cases.
    destruct (_ || _ || _); [constructor|].
    destruct (myRole st) as [role|]; [|constructor].
    destruct (translateText (inputText st) role); cbn [trace];
      [rewrite Hc|]; repeat constructor.
  - unfold handleStartRecording. destruct (_ || _); constructor.
  - rewrite handleStopRecording_cases.
    destruct (_ || _); [constructor|].
    destruct (myRole st) as [role|]; [|constructor].
    destruct (translateAudioContent None role); cbn [trace];
      [rewrite Hc|]; repeat constructor.
  - rewrite toggle_posts_updated_aux by exact Hc. constructor.
Qed.

(** X10. A tab opened with the parameters of an invite link is in the chat
    view with the link's role at once, but the mount returned before the
    channel was created: whatever is done in that tab afterwards, the
    channel stays absent and no event posts anything. *)
Theorem invite_tab_never_posts (role : Language) (storedAccess : option string)
    (evs : list LocalEvent) (ev : LocalEvent) :
  let st0 := state (mount (Some (Language_to_string role)) (Some ACCESS_CODE)
                      storedAccess initialState) in
  let st := run evs st0 in
  myRole st0 = Some role /\ authStage st0 = CHAT /\
  channelOpen st = false /\
  Forall (fun e => is_post e = false) (trace (dispatch ev st)).
Proof.
  simpl.
  assert (H0 : state (mount (Some (Language_to_string role)) (Some ACCESS_CODE)
                        storedAccess initialState)
               = mkAppState CHAT (Some role) [] "" false None false AppRecorder.init)
    by (destruct role; reflexivity).
  rewrite H0. repeat split.
  - rewrite run_channel. reflexivity.
  - apply closed_channel_no_post. rewrite run_channel. reflexivity.
Qed.

(** ** The two ends of a text send *)


(** X11. A text send that passes the guards and gets an answer appends one
    message (sender the bound role, texts from the answer, no reactions, no
    audio), empties the input, leaves the in-flight flag clear, and its
    effects are the one call, with the input as typed (untrimmed), followed
    by the post of that message when a channel is open. *)
Theorem send_text_success
    (translateText : string -> Language -> completion TranslationResponse)
    (now date : Z) (st : AppState) (role : Language) (res : TranslationResponse) :
  myRole st = Some role ->
  isProcessing st = false ->
  trim (inputText st) <> "" ->
  translateText (inputText st) role = Returned res ->
  let created :=
    mkChatMessage (toString now) role (transcription res) (translation res)
      date [] None in
  handleSendText translateText now date st
  = mkOutcome (Returned tt)
      (mkAppState (authStage st) (Some role) (messages st ++ [created]) ""
         false (activeReactionId st) (channelOpen st) (recorder st))
      (CallTranslateText (inputText st) role
         :: if channelOpen st then [PostMessage created] else []).
Proof.
  intros Hrole Hproc Htext Hanswer. rewrite handleSendText_cases.
  rewrite (nonempty_truthy _ Htext), Hproc, Hrole, Hanswer. reflexivity.
Qed.

Lemma send_text_success_witness :
  handleSendText echo 5 6 (setInputText " Hola " (tab spanish [m1]))
  = mkOutcome (Returned tt)
      (tab spanish [m1; mkChatMessage "5" spanish " Hola " "[ Hola ]" 6 [] None])
      [CallTranslateText " Hola " spanish;
       PostMessage (mkChatMessage "5" spanish " Hola " "[ Hola ]" 6 [] None)].
Proof.
  apply (send_text_success echo 5 6 (setInputText " Hola " (tab spanish [m1]))
           spanish (mkTranslationResponse " Hola " "[ Hola ]")).
  - reflexivity.
  - reflexivity.
  - vm_compute. discriminate.
  - reflexivity.
Defined.

(** X12. A text send whose translation fails creates nothing: the log is
    as before, nothing is posted, the user is alerted, the in-flight flag is
    clear again, the failure does not escape the handler; the input has
    been emptied all the same. *)
Theorem send_text_failure
    (translateText : string -> Language -> completion TranslationResponse)
    (now date : Z) (st : AppState) (role : Language) (reason : string) :
  myRole st = Some role ->
  isProcessing st = false ->
  trim (inputText st) <> "" ->
  translateText (inputText st) role = Thrown reason ->
  handleSendText translateText now date st
  = mkOutcome (Returned tt)
      (mkAppState (authStage st) (Some role) (messages st) ""
         false (activeReactionId st) (channelOpen st) (recorder st))
      [CallTranslateText (inputText st) role;
       ConsoleError "Text Interaction failed";
       Alert "Something went wrong with the text translation. Please try again."].
Proof.
  intros Hrole Hproc Htext Hanswer. rewrite handleSendText_cases.
  rewrite (nonempty_truthy _ Htext), Hproc, Hrole, Hanswer. reflexivity.
Qed.

Lemma send_text_failure_witness :
  let down := fun (_ : string) (_ : Language) =>
                @Thrown TranslationResponse "503" in
  handleSendText down 5 6 (setInputText "Hola" (tab spanish [m1]))
  = mkOutcome (Returned tt) (tab spanish [m1])
      [CallTranslateText "Hola" spanish;
       ConsoleError "Text Interaction failed";
       Alert "Something went wrong with the text translation. Please try again."].
Proof.
  intros down.
  apply (send_text_failure down 5 6 (setInputText "Hola" (tab spanish [m1]))
           spanish "503").
  - reflexivity.
  - reflexivity.
  - vm_compute. discriminate.
  - reflexivity.
Defined.

(** ** Text in the input locks the recorder *)

Lemma nonempty_length (s : string) :
  s <> "" -> (0 <? Z.of_nat (String.length s)) = true.
Proof.
  intros H. destruct s; [contradiction|]. simpl String.length.
  apply Z.ltb_lt. lia.
Qed.

(** X13. While the trimmed input holds text, every way to start or stop a
    recording (pointer or keyboard) does nothing: same state, no effect. *)
Theorem text_locks_recording
    (translateAudioContent : option string -> Language -> completion TranslationResponse)
    (key : string) (repeat : bool) (now date : Z) (st : AppState) :
  trim (inputText st) <> "" ->
  handleStartRecording st = mkOutcome (Returned tt) st [] /\
  handleStopRecording translateAudioContent now date st
  = mkOutcome (Returned tt) st [] /\
  handleKeyDownRecording key repeat st = mkOutcome (Returned tt) st [] /\
  handleKeyUpRecording translateAudioContent key now date st
  = mkOutcome (Returned tt) st [].
Proof.
  intros H. apply nonempty_length in H.
  unfold handleStartRecording, handleStopRecording, handleKeyDownRecording,
    handleKeyUpRecording.
  rewrite H. simpl. rewrite orb_true_r. repeat split.
Qed.

Lemma text_locks_recording_witness :
  let st := setInputText "Hola" (tab spanish [m1]) in
  handleStartRecording st = mkOutcome (Returned tt) st [] /\
  handleKeyUpRecording (fun _ _ => Thrown "unused") "Enter" 5 6 st
  = mkOutcome (Returned tt) st [].
Proof.
  intros st.
  destruct (text_locks_recording (fun _ _ => Thrown "unused") "Enter" false 5 6 st)
    as (H1 & _ & _ & H4).
  - vm_compute. discriminate.
  - split; [exact H1 | exact H4].
Defined.

(** ** The reaction summaries *)

Lemma existsb_eqb_elem (x : string) (l : list string) :
  existsb (String.eqb x) l = true <-> x ∈ l.
Proof.
  rewrite existsb_exists. split.
  - intros (y & Hy & Heq). apply String.eqb_eq in Heq. subst y.
    apply list_elem_of_In, Hy.
  - intros H. exists x. split; [apply list_elem_of_In, H | apply String.eqb_refl].
Qed.

Lemma Set_add_all_elem (seen l : list string) (y : string) :
  y ∈ Set_add_all seen l <-> y ∈ seen \/ y ∈ l.
Proof.
  revert seen. induction l as [|x l IH]; simpl; intros seen.
  - split; [auto | intros [H|H]; [exact H | inversion H]].
  - rewrite IH. destruct (existsb (String.eqb x) seen) eqn:Hx.
    + apply existsb_eqb_elem in Hx. rewrite elem_of_cons.
      split; [tauto|]. intros [H|[->|H]]; auto.
    + rewrite elem_of_app, list_elem_of_singleton, elem_of_cons. tauto.
Qed.

Lemma Set_add_all_NoDup (seen l : list string) :
  NoDup seen -> NoDup (Set_add_all seen l).
Proof.
  revert seen. induction l as [|x l IH]; simpl; intros seen H; [exact H|].
  apply IH. destruct (existsb (String.eqb x) seen) eqn:Hx; [exact H|].
  apply NoDup_app. repeat split; [exact H | | apply NoDup_singleton].
  intros y Hy Hy'. apply list_elem_of_singleton in Hy'. subst y.
  apply existsb_eqb_elem in Hy. congruence.
Qed.

Lemma sum_list_map_add {A} (f g : A -> nat) (l : list A) :
  sum_list (map (fun x => f x + g x)%nat l)
  = (sum_list (map f l) + sum_list (map g l))%nat.
Proof. induction l as [|x l IH]; simpl; [reflexivity | rewrite IH; lia]. Qed.

Lemma sum_indicator (x : string) (es : list string) :
  NoDup es ->
  sum_list (map (fun e => if String.eqb x e then 1 else 0)%nat es)
  = if bool_decide (x ∈ es) then 1%nat else 0%nat.
Proof.
  induction 1 as [|e es He Hnd IH]; simpl; [reflexivity|].
  rewrite IH. destruct (String.eqb x e) eqn:Hxe.
  - apply String.eqb_eq in Hxe. subst e.
    rewrite (bool_decide_eq_false_2 _ He).
    rewrite bool_decide_eq_true_2 by left. reflexivity.
  - apply String.eqb_neq in Hxe.
    destruct (bool_decide (x ∈ es)) eqn:Hin.
    + apply bool_decide_eq_true_1 in Hin.
      rewrite bool_decide_eq_true_2 by (right; exact Hin). reflexivity.
    + apply bool_decide_eq_false_1 in Hin.
      rewrite bool_decide_eq_false_2; [reflexivity|].
      intros H'. apply elem_of_cons in H' as [H'|H']; contradiction.
Qed.

(** Counting the reactions emoji by emoji counts each of them once. *)
Lemma count_partition (es : list string) (rs : list Reaction) :
  NoDup es ->
  (forall r, r ∈ rs -> emoji r ∈ es) ->
  sum_list (map (fun e => length (List.filter
                                   (fun r => String.eqb (emoji r) e) rs)) es)
  = length rs.
Proof.
  intros Hnd. induction rs as [|r rs IH]; simpl; intros Hin.
  - clear Hnd Hin. induction es as [|e es IHes]; simpl; [reflexivity|].
    exact IHes.
  - rewrite <- IH by (intros r' Hr'; apply Hin; right; exact Hr').
    transitivity
      (sum_list (map (fun e => (if String.eqb (emoji r) e then 1 else 0)
                               + length (List.filter
                                   (fun r0 => String.eqb (emoji r0) e) rs))%nat es)).
    + f_equal. apply map_ext. intros e.
      destruct (String.eqb (emoji r) e); reflexivity.
    + rewrite sum_list_map_add, (sum_indicator _ _ Hnd).
      rewrite bool_decide_eq_true_2 by (apply Hin; left). reflexivity.
Qed.

Lemma summaries_emojis (role : option Language) (msg : ChatMessage) :
  map s_emoji (uniqueReactions role msg) = Set_from (map emoji (reactions msg)).
Proof.
  unfold uniqueReactions. rewrite map_map. simpl. apply map_id.
Qed.

Lemma Set_from_elem (l : list string) (y : string) : y ∈ Set_from l <-> y ∈ l.
Proof.
  unfold Set_from. rewrite Set_add_all_elem. split; [|auto].
  intros [H|H]; [inversion H | exact H].
Qed.

(** X14. The summaries under a message list each emoji of its reactions
    once; every summary counts at least one reaction and the counts add up
    to the number of reactions. *)
Theorem summaries_partition (role : option Language) (msg : ChatMessage) :
  let summaries := uniqueReactions role msg in
  NoDup (map s_emoji summaries) /\
  (forall e, e ∈ map s_emoji summaries <-> e ∈ map emoji (reactions msg)) /\
  Forall (fun s => (1 <= count s)%nat) summaries /\
  sum_list (map count summaries) = length (reactions msg).
Proof.
  simpl. rewrite summaries_emojis.
  assert (Hnd : NoDup (Set_from (map emoji (reactions msg))))
    by (apply Set_add_all_NoDup; constructor).
  split; [exact Hnd|]. split; [intros e; apply Set_from_elem|]. split.
  - unfold uniqueReactions. apply Forall_forall. intros s Hs.
    apply list_elem_of_In, in_map_iff in Hs as (e & <- & He).
    apply list_elem_of_In, Set_from_elem, list_elem_of_In, in_map_iff in He
      as (r & Hr & Hin).
    simpl. unfold reactors. rewrite length_map.
    assert (Hf : In r (List.filter (fun r0 => String.eqb (emoji r0) e)
                         (reactions msg))).
    { apply filter_In. split; [exact Hin | apply String.eqb_eq, Hr]. }
    destruct (List.filter _ (reactions msg)); [contradiction | simpl; lia].
  - unfold uniqueReactions. rewrite map_map. simpl.
    erewrite map_ext; [apply count_partition; [exact Hnd|]|].
    + intros r Hr. apply Set_from_elem.
      apply list_elem_of_In, in_map, list_elem_of_In, Hr.
    + intros e. unfold reactors. apply length_map.
Qed.

Lemma includes_reactors (role : Language) (e : string) (msg : ChatMessage) :
  includes (Some role) (reactors e msg) = true
  <-> mkReaction e role ∈ reactions msg.
Proof.
  unfold includes, reactors. rewrite existsb_exists. split.
  - intros (s & Hs & Heq). apply Language_eqb_eq in Heq. subst s.
    apply in_map_iff in Hs as (r & Hr & Hin).
    apply filter_In in Hin as [Hin He]. apply String.eqb_eq in He.
    apply list_elem_of_In. destruct r as [e' s']. simpl in *. subst. exact Hin.
  - intros H. exists role. split; [|apply Language_eqb_eq; reflexivity].
    apply in_map_iff. exists (mkReaction e role). split; [reflexivity|].
    apply filter_In. split; [apply list_elem_of_In, H | apply String.eqb_refl].
Qed.

(** X15. A summary is marked as the viewer's own exactly when a click on
    it will remove a reaction: if marked, the toggle on its emoji takes one
    reaction off the message; if not, it adds one. *)
Theorem summary_predicts_toggle (role : Language) (msg : ChatMessage)
    (s : ReactionSummary) :
  s ∈ uniqueReactions (Some role) msg ->
  let after := toggleReactions (s_emoji s) role (reactions msg) in
  (isMyReaction s = true /\ S (length after) = length (reactions msg)) \/
  (isMyReaction s = false /\ length after = S (length (reactions msg))).
Proof.
  intros Hs. simpl. unfold uniqueReactions in Hs.
  apply list_elem_of_In, in_map_iff in Hs as (e & <- & _). simpl.
  destruct (toggleReactions_length e role (reactions msg)) as [[Hin Hl]|[Hout Hl]].
  - left. split; [apply includes_reactors, Hin | exact Hl].
  - right. split; [|exact Hl].
    apply not_true_is_false. intros H. apply includes_reactors in H. contradiction.
Qed.

Lemma summary_predicts_toggle_witness :
  let msg := withReactions m1 [mkReaction heart english; mkReaction heart spanish] in
  let s := mkReactionSummary heart true 2 in
  isMyReaction s = true /\
  S (length (toggleReactions heart spanish (reactions msg))) = 2%nat.
Proof.
  intros msg s.
  destruct (summary_predicts_toggle spanish msg s) as [H|[H _]].
  - vm_compute. left.
  - exact H.
  - discriminate H.
Defined.

Lemma Language_NoDup_length (l : list Language) :
  NoDup l -> (length l <= 2)%nat.
Proof.
  intros H. destruct l as [|a [|b [|c l]]]; simpl; try lia.
  exfalso.
  apply NoDup_cons in H as [Ha H]. apply NoDup_cons in H as [Hb _].
  apply not_elem_of_cons in Ha as [Hab Ha].
  apply not_elem_of_cons in Ha as [Hac _].
  apply not_elem_of_cons in Hb as [Hbc _].
  destruct a, b, c; congruence.
Qed.

Lemma reactors_NoDup (e : string) (msg : ChatMessage) :
  NoDup (reactions msg) -> NoDup (reactors e msg).
Proof.
  unfold reactors. induction 1 as [|r rs Hr Hnd IH]; simpl; [constructor|].
  destruct (String.eqb (emoji r) e) eqn:He; [|exact IH].
  simpl. apply NoDup_cons. split; [|exact IH].
  intros Hin. apply list_elem_of_In, in_map_iff in Hin as (r' & Hs & Hin').
  apply filter_In in Hin' as [Hin' He'].
  apply String.eqb_eq in He, He'.
  apply Hr. apply list_elem_of_In.
  destruct r as [e1 s1], r' as [e2 s2]. simpl in *. subst. exact Hin'.
Qed.

(** X16. In every state a tab reaches from the empty log by local events,
    no summary counts more than two reactions: one per speaker. *)
Theorem session_summary_counts (roleParam codeParam storedAccess : option string)
    (evs : list LocalEvent) (role : option Language) :
  Forall (fun m => Forall (fun s => (count s <= 2)%nat) (uniqueReactions role m))
    (messages (session roleParam codeParam storedAccess evs)).
Proof.
  assert (H : reactions_unique
                (messages (session roleParam codeParam storedAccess evs))).
  { unfold session. apply run_unique. rewrite mount_messages. constructor. }
  eapply Forall_impl; [exact H|]. simpl. intros m Hm.
  unfold uniqueReactions. apply Forall_forall. intros s Hs.
  apply list_elem_of_In, in_map_iff in Hs as (e & <- & _). simpl.
  apply Language_NoDup_length, reactors_NoDup, Hm.
Qed.

(** ** The recording clock *)

Lemma pad_below_60_all :
  forallb (fun n => String.eqb (padStart 2 "0" (toString (Z.of_nat n)))
                               (two_digits (Z.of_nat n)))
    (seq 0 60) = true.
Proof. vm_compute. reflexivity. Qed.

Lemma pad_below_60 (r : Z) :
  0 <= r < 60 -> padStart 2 "0" (toString r) = two_digits r.
Proof.
  intros Hr. pose proof pad_below_60_all as H.
  rewrite forallb_forall in H.
  specialize (H (Z.to_nat r)). rewrite Z2Nat.id in H by lia.
  apply String.eqb_eq, H. apply in_seq. lia.
Qed.

Lemma MAX_SAFE_INTEGER_range (seconds : Z) :
  0 <= seconds <= MAX_SAFE_INTEGER ->
  (- MAX_SAFE_INTEGER <=? seconds) && (seconds <=? MAX_SAFE_INTEGER) = true.
Proof.
  intros H. apply andb_true_iff. split; apply Z.leb_le; [|lia].
  unfold MAX_SAFE_INTEGER in *. lia.
Qed.

Lemma formatTime_shape_aux (seconds : Z) :
  0 <= seconds <= MAX_SAFE_INTEGER ->
  formatTime (Some seconds)
  = Some (toString (seconds / 60) +:+ ":" +:+ two_digits (seconds mod 60)).
Proof.
  intros H. unfold formatTime.
  rewrite (MAX_SAFE_INTEGER_range _ H). cbv zeta.
  rewrite Z.rem_mod_nonneg by lia.
  rewrite pad_below_60 by (apply Z.mod_pos_bound; lia). reflexivity.
Qed.

(** X17. For a whole number of seconds from zero up to the largest safe
    integer, the clock shows the minutes in decimal, unpadded, a colon, and
    the seconds of the minute as exactly two decimal digits. For
    [undefined], which is what the [App] passes (its recorder has no
    [recordingTime]), it shows NaN on both sides. *)
Theorem formatTime_shape (seconds : Z) (r : AppRecorder.t) :
  0 <= seconds <= MAX_SAFE_INTEGER ->
  formatTime (Some seconds)
  = Some (toString (seconds / 60) +:+ ":" +:+ two_digits (seconds mod 60)) /\
  formatTime (App_recordingTime r) = Some "NaN:NaN".
Proof.
  intros H. split; [apply formatTime_shape_aux, H | reflexivity].
Qed.

Lemma formatTime_shape_witness :
  formatTime (Some 75) = Some "1:15" /\ formatTime (Some 5) = Some "0:05" /\
  formatTime (Some 600) = Some "10:00".
Proof.
  split; [|split].
  - apply (formatTime_shape 75 AppRecorder.init). unfold MAX_SAFE_INTEGER. lia.
  - apply (formatTime_shape 5 AppRecorder.init). unfold MAX_SAFE_INTEGER. lia.
  - apply (formatTime_shape 600 AppRecorder.init). unfold MAX_SAFE_INTEGER. lia.
Defined.

Lemma string_length_append (a b : string) :
  String.length (a +:+ b) = (String.length a + String.length b)%nat.
Proof.
  induction a as [|c a IH]; [reflexivity|].
  change (S (String.length (a +:+ b)) = S (String.length a + String.length b)).
  rewrite IH. reflexivity.
Qed.
Lemma append_inj_length (x y t t' : string) :
  String.length t = String.length t' ->
  x +:+ t = y +:+ t' -> x = y /\ t = t'.
Proof.
  revert y. induction x as [|c x IH]; intros [|d y] Hl H.
  - auto.
  - exfalso. apply (f_equal String.length) in H.
    rewrite !string_length_append in H. simpl in H. lia.
  - exfalso. apply (f_equal String.length) in H.
    rewrite !string_length_append in H. simpl in H. lia.
  - change (String c (x +:+ t) = String d (y +:+ t')) in H.
    injection H as -> H. destruct (IH y Hl H) as [-> ->]. auto.
Qed.

Lemma digit_char_inj (a b : Z) :
  0 <= a < 10 -> 0 <= b < 10 -> digit_char a = digit_char b -> a = b.
Proof.
  unfold digit_char. intros Ha Hb H.
  apply (f_equal N_of_ascii) in H.
  rewrite !N_ascii_embedding in H by lia. lia.
Qed.

(** X18. The clock is lossless on whole numbers of seconds from zero up
    to the largest safe integer: two different durations are never shown
    the same. *)
Theorem formatTime_injective (a b : Z) :
  0 <= a <= MAX_SAFE_INTEGER -> 0 <= b <= MAX_SAFE_INTEGER ->
  formatTime (Some a) = formatTime (Some b) -> a = b.
Proof.
  intros Ha Hb H.
  rewrite (formatTime_shape_aux a Ha), (formatTime_shape_aux b Hb) in H.
  injection H as H.
  apply append_inj_length in H as [Hq Ht]; [|reflexivity].
  apply toString_inj in Hq.
  unfold two_digits in Ht. injection Ht as H1 H0.
  pose proof (Z.mod_pos_bound a 60 ltac:(lia)) as Hra.
  pose proof (Z.mod_pos_bound b 60 ltac:(lia)) as Hrb.
  apply digit_char_inj in H1;
    [| split; [apply Z.div_pos; lia | apply Z.div_lt_upper_bound; lia]
     | split; [apply Z.div_pos; lia | apply Z.div_lt_upper_bound; lia]].
  apply digit_char_inj in H0; [| apply Z.mod_pos_bound; lia | apply Z.mod_pos_bound; lia].
  rewrite (Z.div_mod a 60), (Z.div_mod b 60) by lia.
  rewrite (Z.div_mod (a mod 60) 10), (Z.div_mod (b mod 60) 10) by lia.
  rewrite Hq, H1, H0. reflexivity.
Qed.

Lemma formatTime_injective_witness :
  bool_decide (formatTime (Some 61) = formatTime (Some 3601)) = false.
Proof.
  apply bool_decide_eq_false_2. intros H.
  apply (formatTime_injective 61 3601) in H;
    [discriminate H | unfold MAX_SAFE_INTEGER; lia | unfold MAX_SAFE_INTEGER; lia].
Defined.

(** ** The recorder hook: one recording from start to payload *)

Lemma feed_spec (ds : list string) (r : Hook.t) :
  feed ds r
  = Hook.mk (Hook.isRecording r) (Hook.recordingTime r) (Hook.mediaRecorderRef r)
      (Hook.chunksRef r ++ nonempty_blobs ds) (Hook.timerRef r) (Hook.intervals r).
Proof.
  revert r. induction ds as [|d ds IH]; intros r; simpl.
  - rewrite app_nil_r. destruct r; reflexivity.
  - rewrite IH. unfold Hook.ondataavailable, nonempty_blobs. simpl.
    destruct (0 <? Z.of_nat (String.length d)); simpl.
    + rewrite <- app_assoc. reflexivity.
    + reflexivity.
Qed.







(** A second start without a stop between leaves the first interval
    registered for good. *)
Example Hook_second_start_leaks :
  let r := state (Hook.startRecording true 2
                    (state (Hook.startRecording true 1 Hook.init))) in
  let idle := snd (Hook.onstop (fun _ => Thrown "unread")
                     (snd (Hook.stopRecording false r))) in
  Hook.intervals idle = [1] /\ Hook.isRecording idle = false /\
  Hook.recordingTime (Hook.tick 1 idle) = 1.
Proof. repeat split. Qed.

(** X20. A stop on a hook that is idle after a finished recording does not
    report a missing recorder: the old recorder object is still referenced,
    so the call either passes on the browser's InvalidStateError or returns
    a promise that stays pending; the hook's state is as it was. *)
Theorem Hook_stop_after_cycle (r : Hook.t) (timerId : Z) (ds : list string)
    (throws throws' : bool) (readAsDataURL : string -> completion string) :
  let r1 := state (Hook.startRecording true timerId r) in
  let stopped := Hook.stopRecording throws (feed ds r1) in
  let idle := snd (Hook.onstop readAsDataURL (snd stopped)) in
  Hook.isRecording idle = false /\
  Hook.stopRecording throws' idle
  = (if throws' then Hook.Settled (Thrown "InvalidStateError") else Hook.Pending,
     idle).
Proof.
  simpl. rewrite feed_spec. simpl.
  unfold Hook.stopRecording, Hook.onstop. simpl.
  split; [reflexivity|]. destruct throws'; reflexivity.
Qed.




(** ** Playing voice memos: one at a time *)

Lemma pause_current_silent (s : Playback.t) :
  Playback_inv s ->
  Forall (fun a => Playback.paused a = true) (Playback.pause_current s).
Proof.
  intros Hone. apply Forall_lookup. intros j b Hb.
  destruct (Playback.paused b) eqn:Hp; [reflexivity|exfalso].
  unfold Playback.pause_current, Playback.pause_at in Hb.
  destruct (Playback.audioPlayerRef s) as [i|] eqn:Href.
  - destruct (Playback.audios s !! i) as [a|] eqn:Ha.
    + destruct (decide (i = j)) as [->|Hij].
      * rewrite list_lookup_insert_eq in Hb by (eapply lookup_lt_Some; eauto).
        injection Hb as <-. discriminate Hp.
      * rewrite list_lookup_insert_ne in Hb by exact Hij.
        pose proof (Hone j b Hb Hp). congruence.
    + pose proof (Hone j b Hb Hp). congruence.
  - pose proof (Hone j b Hb Hp). congruence.
Qed.

Lemma silent_filter (l : list Playback.Audio) :
  Forall (fun a => Playback.paused a = true) l ->
  List.filter (fun a => negb (Playback.paused a)) l = [].
Proof.
  induction 1 as [|a l Ha _ IH]; simpl; [reflexivity|].
  rewrite Ha. exact IH.
Qed.

Lemma silent_inv (id : option string) (text : string)
    (l : list Playback.Audio) (ref : option nat) :
  Forall (fun a => Playback.paused a = true) l ->
  Playback_inv (Playback.mk id text l ref).
Proof.
  intros H i a Ha Hp. simpl in Ha. rewrite Forall_lookup in H.
  rewrite (H i a Ha) in Hp. discriminate.
Qed.

Lemma toggleAudio_inv (msgId url : string) (starts : bool) (s : Playback.t) :
  Playback_inv s -> Playback_inv (Playback.toggleAudio msgId url starts s).
Proof.
  intros Hinv. pose proof (pause_current_silent s Hinv) as Hsilent.
  unfold Playback.toggleAudio.
  destruct (Playback.is_playing_id s msgId).
  - apply silent_inv, Hsilent.
  - intros i a Ha Hp. cbn [Playback.audios Playback.audioPlayerRef] in *.
    apply lookup_app_Some in Ha as [Ha|[Hge Ha]].
    + rewrite Forall_lookup in Hsilent.
      rewrite (Hsilent i a Ha) in Hp. discriminate.
    + apply list_lookup_singleton_Some in Ha as [Hi _]. f_equal. lia.
Qed.

(** Rewriting an element without touching its [paused] attribute. *)
Lemma retouch_inv (s : Playback.t) (i : nat) (a a' : Playback.Audio)
    (id : option string) (text : string) :
  Playback_inv s ->
  Playback.audios s !! i = Some a ->
  (Playback.paused a' = false -> Playback.paused a = false) ->
  Playback_inv (Playback.mk id text (<[i := a']> (Playback.audios s))
                  (Playback.audioPlayerRef s)).
Proof.
  intros Hinv Ha Hsame j b Hb Hp.
  cbn [Playback.audios Playback.audioPlayerRef] in *.
  destruct (decide (i = j)) as [->|Hij].
  - rewrite list_lookup_insert_eq in Hb by (eapply lookup_lt_Some; eauto).
    injection Hb as <-. apply (Hinv j a Ha), Hsame, Hp.
  - rewrite list_lookup_insert_ne in Hb by exact Hij.
    apply (Hinv j b Hb Hp).
Qed.

Lemma step_inv (ev : Playback.Event) (s : Playback.t) :
  Playback_inv s -> Playback_inv (Playback.step ev s).
Proof.
  intros Hinv. destruct ev as [msgId url starts|i|i|i]; cbn [Playback.step].
  - apply toggleAudio_inv, Hinv.
  - unfold Playback.onfulfilled.
    destruct (Playback.audios s !! i) as [a|] eqn:Ha; [|exact Hinv].
    destruct (Playback.settled a); [exact Hinv|].
    eapply retouch_inv; eauto.
  - unfold Playback.onrejected.
    destruct (Playback.audios s !! i) as [a|] eqn:Ha; [|exact Hinv].
    destruct (Playback.settled a); [exact Hinv|].
    cbn [state]. eapply retouch_inv; eauto.
  - unfold Playback.onended.
    destruct (Playback.audios s !! i) as [a|] eqn:Ha; [|exact Hinv].
    destruct (Playback.paused a) eqn:Hp; [exact Hinv|].
    eapply retouch_inv; eauto; discriminate.
Qed.

Lemma run_inv (evs : list Playback.Event) (s : Playback.t) :
  Playback_inv s -> Playback_inv (Playback.run evs s).
Proof.
  revert s. induction evs as [|ev evs IH]; simpl; intros s H; [exact H|].
  apply IH, step_inv, H.
Qed.

Lemma init_inv : Playback_inv Playback.init.
Proof. apply silent_inv. constructor. Qed.

Lemma filter_at_most_one {A} (p : A -> bool) (l : list A) :
  (forall i j a b, l !! i = Some a -> l !! j = Some b ->
                   p a = true -> p b = true -> i = j) ->
  (length (List.filter p l) <= 1)%nat.
Proof.
  induction l as [|x l IH]; simpl; intros H; [lia|].
  destruct (p x) eqn:Hx.
  - assert (Hnone : List.filter p l = []).
    { destruct (List.filter p l) as [|y k] eqn:Hf; [reflexivity|exfalso].
      assert (Hy : In y (List.filter p l)) by (rewrite Hf; left; reflexivity).
      apply filter_In in Hy as [Hy Hpy].
      apply list_elem_of_In, list_elem_of_lookup in Hy as [j Hj].
      specialize (H 0%nat (S j) x y eq_refl Hj Hx Hpy). discriminate. }
    rewrite Hnone. simpl. lia.
  - apply IH. intros i j a b Ha Hb Hpa Hpb.
    specialize (H (S i) (S j) a b Ha Hb Hpa Hpb). lia.
Qed.

(** X22. Whatever memos are toggled, whenever the promises of [play()]
    are settled and whichever elements reach their end, at most one audio
    element is out of [paused] at any time, and it is the one the ref
    points to. *)
Theorem Playback_one_at_a_time (evs : list Playback.Event) :
  let s := Playback.run evs Playback.init in
  (length (Playback.playing_now s) <= 1)%nat /\ Playback_inv s.
Proof.
  simpl. pose proof (run_inv evs _ init_inv) as Hone.
  split; [|exact Hone].
  unfold Playback.playing_now. apply filter_at_most_one.
  intros i j a b Ha Hb Hpa Hpb.
  apply negb_true_iff in Hpa, Hpb.
  pose proof (Hone i a Ha Hpa). pose proof (Hone j b Hb Hpb). congruence.
Qed.

Lemma onrejected_paused (i : nat) (s : Playback.t) :
  map Playback.paused (Playback.audios (state (Playback.onrejected i s)))
  = map Playback.paused (Playback.audios s).
Proof.
  unfold Playback.onrejected.
  destruct (Playback.audios s !! i) as [a|] eqn:Ha; [|reflexivity].
  destruct (Playback.settled a); [reflexivity|].
  cbn [state Playback.audios].
  change (map Playback.paused ?l) with (Playback.paused <$> l).
  rewrite list_fmap_insert. cbn [Playback.paused].
  apply list_insert_id. rewrite list_lookup_fmap, Ha. reflexivity.
Qed.

(** X23. In any state reached that way, the body of a toggle on the memo
    marked as playing pauses the element of the ref, leaves every element
    paused and clears the mark; on another memo it pauses the element of
    the ref, makes the new element the only one that can be out of
    [paused] (it is, unless the browser refuses to play) and marks the
    memo. A promise of [play()] rejected afterwards, of the new element or
    of an earlier one, clears the mark and leaves every [paused] attribute
    as it is: the mark can be null while an element plays. *)
Theorem toggleAudio_outcome (evs : list Playback.Event) (msgId url : string)
    (starts : bool) :
  let s := Playback.run evs Playback.init in
  let s' := Playback.toggleAudio msgId url starts s in
  (if Playback.is_playing_id s msgId
   then Playback.playing_now s' = [] /\ Playback.playingAudioId s' = None /\
        Playback.audioAnnounce s' = "Voice memo paused"
   else Playback.playing_now s'
        = (if starts then [Playback.mkAudio url false false] else []) /\
        Playback.playingAudioId s' = Some msgId /\
        Playback.audioPlayerRef s' = Some (length (Playback.audios s))) /\
  (forall i a,
     Playback.audios s' !! i = Some a -> Playback.settled a = false ->
     let late := state (Playback.onrejected i s') in
     Playback.playingAudioId late = None /\
     map Playback.paused (Playback.audios late)
     = map Playback.paused (Playback.audios s')).
Proof.
  simpl. pose proof (run_inv evs _ init_inv) as Hinv.
  set (s := Playback.run evs Playback.init) in *.
  pose proof (silent_filter _ (pause_current_silent s Hinv)) as Hsilent.
  split.
  - unfold Playback.toggleAudio, Playback.playing_now.
    destruct (Playback.is_playing_id s msgId); cbn [Playback.audios
      Playback.playingAudioId Playback.audioAnnounce Playback.audioPlayerRef].
    + rewrite Hsilent. repeat split.
    + rewrite List.filter_app, Hsilent. split; [|split; [reflexivity|]].
      * destruct starts; reflexivity.
      * f_equal. unfold Playback.pause_current, Playback.pause_at.
        destruct (Playback.audioPlayerRef s) as [k|]; [|reflexivity].
        destruct (Playback.audios s !! k); [apply length_insert | reflexivity].
  - intros i a Ha Hs. split; [|apply onrejected_paused].
    unfold Playback.onrejected. rewrite Ha, Hs. reflexivity.
Qed.

(** A memo started while the promise of the one before is pending: the
    pause rejects that promise, its callback clears the mark, and the new
    memo plays unmarked. *)
Example mark_cleared_while_playing :
  let s := Playback.run
             [Playback.Toggle "a" "ua" true; Playback.Toggle "b" "ub" true;
              Playback.Rejected 0]
             Playback.init in
  Playback.playing_now s = [Playback.mkAudio "ub" false false] /\
  Playback.playingAudioId s = None.
Proof. repeat split. Qed.

(** ** The lock screen and the next visit *)

(** X24. An access code that, trimmed and uppercased, is the code unlocks:
    the stage becomes the role selection, the error flag is cleared and the
    grant is stored, so that a later visit without invite parameters starts
    at the role selection, with the channel open and no role. Any other
    input changes neither stage nor storage; it empties the field and
    raises the error flag. *)
Theorem unlock_and_return (toUpperCase : string -> string) (form : LockForm)
    (storage : option string) (st : AppState) :
  let out := handleUnlock toUpperCase form storage st in
  let form' := fst (fst out) in
  let storage' := snd (fst out) in
  let st' := snd out in
  let next := state (mount None None storage' initialState) in
  (toUpperCase (trim (accessInput form)) = ACCESS_CODE ->
   authStage st' = ROLE_SELECT /\ messages st' = messages st /\
   authError form' = false /\
   authStage next = ROLE_SELECT /\ channelOpen next = true /\
   myRole next = None) /\
  (toUpperCase (trim (accessInput form)) <> ACCESS_CODE ->
   st' = st /\ storage' = storage /\ form' = mkLockForm "" true).
Proof.
  simpl. unfold handleUnlock.
  destruct (String.eqb (toUpperCase (trim (accessInput form))) ACCESS_CODE) eqn:H.
  - apply String.eqb_eq in H. split; [|intros Hne; contradiction].
    intros _. repeat split.
  - apply String.eqb_neq in H. split; [intros Heq; contradiction|].
    intros _. repeat split.
Qed.

(** The form forgives case and surrounding blanks. *)
Example unlock_forgiving :
  handleUnlock upper_ascii (mkLockForm "  besos " true) None initialState
  = (mkLockForm "  besos " false, Some "true", setAuthStage ROLE_SELECT initialState).
Proof. vm_compute. reflexivity. Qed.

(** Text after the code is not forgiven. *)
Example unlock_refuses_more :
  handleUnlock upper_ascii (mkLockForm "BESOS  bc" false) None initialState
  = (mkLockForm "" true, None, initialState).
Proof. vm_compute. reflexivity. Qed.

(** The invite link does not: its code must be the code as it is. *)
Example invite_code_exact :
  myRole (state (mount (Some "english") (Some "besos") None initialState)) = None.
Proof. vm_compute. reflexivity. Qed.


(** ** A reaction from one tab to the other *)

Lemma stored_cons (msgId : string) (x : ChatMessage) (l : list ChatMessage) :
  stored msgId (x :: l)
  = if String.eqb (id x) msgId then Some x else stored msgId l.
Proof.
  unfold stored. simpl. destruct (String.eqb (id x) msgId); [reflexivity|].
  destruct (find_first _ l); reflexivity.
Qed.

Lemma stored_id (msgId : string) (l : list ChatMessage) (msg : ChatMessage) :
  stored msgId l = Some msg -> id msg = msgId.
Proof.
  induction l as [|x l IH]; [discriminate|].
  rewrite stored_cons. destruct (String.eqb (id x) msgId) eqn:Hx; [|exact IH].
  intros H. injection H as <-. apply String.eqb_eq, Hx.
Qed.

Lemma stored_map_toggled (msgId e : string) (role : Language)
    (l : list ChatMessage) (msg : ChatMessage) :
  stored msgId l = Some msg ->
  stored msgId (map (toggled msgId e role) l) = Some (toggled msgId e role msg).
Proof.
  induction l as [|x l IH]; [discriminate|]. simpl map.
  rewrite !stored_cons.
  replace (id (toggled msgId e role x)) with (id x)
    by (symmetry; apply toggled_same_core).
  destruct (String.eqb (id x) msgId); [|exact IH].
  intros H. injection H as <-. reflexivity.
Qed.

Lemma filter_id_unique (msgId : string) (l : list ChatMessage)
    (msg : ChatMessage) :
  NoDup (map id l) -> stored msgId l = Some msg ->
  filter (fun m => id m = msgId) l = [msg].
Proof.
  induction l as [|x l IH]; [discriminate|]. simpl map.
  intros Hnd. apply NoDup_cons in Hnd as [Hx Hnd].
  rewrite stored_cons. destruct (String.eqb (id x) msgId) eqn:Heq.
  - apply String.eqb_eq in Heq. intros H. injection H as <-.
    rewrite filter_cons_True by exact Heq. f_equal.
    destruct (filter (fun m => id m = msgId) l) as [|y k] eqn:Hf; [reflexivity|].
    exfalso. assert (Hy : y ∈ filter (fun m => id m = msgId) l)
      by (rewrite Hf; left).
    apply list_elem_of_filter in Hy as [Hid Hy].
    apply Hx. rewrite Heq, <- Hid.
    apply list_elem_of_In, in_map, list_elem_of_In, Hy.
  - apply String.eqb_neq in Heq. intros H.
    rewrite filter_cons_False by exact Heq. apply IH; assumption.
Qed.

Lemma map_id_toggled (msgId e : string) (role : Language) (l : list ChatMessage) :
  map id (map (toggled msgId e role) l) = map id l.
Proof.
  rewrite map_map. apply map_ext. intros m. apply toggled_same_core.
Qed.

(** X25. A reaction reaches the other tab. In a tab with a role, an open
    channel and pairwise distinct ids, a toggle on a stored message posts
    one record, the one the tab now stores under that id; and any tab that
    receives it stores that same record under that id. *)
Theorem toggle_reaches_other_tab (stA : AppState) (msgId e : string)
    (role : Language) (msg : ChatMessage) :
  NoDup (map id (messages stA)) ->
  myRole stA = Some role ->
  channelOpen stA = true ->
  stored msgId (messages stA) = Some msg ->
  let o := handleToggleReaction msgId e stA in
  let updated := withReactions msg (toggleReactions e role (reactions msg)) in
  trace o = [PostMessage updated] /\
  stored msgId (messages (state o)) = Some updated /\
  forall stB, stored msgId (messages (state (onmessage updated stB)))
              = Some updated.
Proof.
  intros Hnd Hrole Hopen Hstored. simpl.
  pose proof (stored_id _ _ _ Hstored) as Hid.
  pose proof (toggle_messages stA msgId e role Hrole) as Hlog.
  pose proof (stored_map_toggled msgId e role _ _ Hstored) as Hnew.
  rewrite (toggled_target _ _ _ _ Hid) in Hnew.
  split; [|split].
  - pose proof (toggle_trace_eq stA msgId e) as Ht. simpl in Ht.
    rewrite Ht, Hopen, Hrole, Hlog. simpl andb. cbv iota.
    rewrite (filter_id_unique msgId _ _ ltac:(rewrite map_id_toggled; exact Hnd) Hnew).
    reflexivity.
  - rewrite Hlog. exact Hnew.
  - intros stB. simpl.
    pose proof (stored_merge
                  (withReactions msg (toggleReactions e role (reactions msg)))
                  (messages stB)) as Hm.
    simpl in Hm. rewrite Hid in Hm. exact Hm.
Qed.

Lemma toggle_reaches_other_tab_witness :
  let stA := tab english [m1] in
  let stB := tab spanish [m1] in
  let updated := withReactions m1 [mkReaction heart english] in
  trace (handleToggleReaction "m1" heart stA) = [PostMessage updated] /\
  stored "m1" (messages (state (onmessage updated stB))) = Some updated.
Proof.
  intros stA stB updated.
  destruct (toggle_reaches_other_tab stA "m1" heart english m1)
    as (Ht & _ & HB).
  - apply (bool_decide_unpack _). vm_compute. exact I.
  - reflexivity.
  - reflexivity.
  - reflexivity.
  - split; [exact Ht | exact (HB stB)].
Defined.
